(** * mentat: edit model, conflict resolver, applier, validity check,
      review workflow and streaming printer

    A shallow embedding of [mentat/parsers/file_edit.py],
    [mentat/streaming_printer.py] and of the edit filter of
    [mentat/session.py], with the properties of the edit engine stated
    over it.

    Conventions.
    - Python [int] is [Z]; a line buffer ([list[str]]) is [list string].
    - A [Replacement] object is a record value.  The parsers build one
      fresh object per change and a [FileEdit] owns its replacements
      exclusively, so a replacement list is a list of pairwise distinct
      objects and in-place field updates are updates of list elements.
    - [print]/[cprint] calls only write to the terminal and are left out;
      prompts that read an answer are threaded through [UserIO].
    - An exception is a value of [exn]; a call that can raise returns a
      [result]. *)

From stdpp Require Import base list sorting gmap strings.
From Stdlib Require Import ZArith Lia QArith Qminmax.

Local Open Scope Z_scope.

(** ** Exceptions *)

Inductive exn : Type :=
  | MentatError (msg : string)
  | KeyError
  | ValueError
  | ZeroDivisionError
  | TypeError.

Inductive result (A : Type) : Type :=
  | Ok (a : A)
  | Raise (e : exn).
Arguments Ok {A} a.
Arguments Raise {A} e.

(** ** Python sequences *)

Module Py.

(** [len(l)] as a Python integer. *)
Definition len {A} (l : list A) : Z := Z.of_nat (length l).

(** A slice bound [k] of a sequence of length [n], as Python
    normalises it: a negative bound counts from the end, and the
    result is clamped to [0 .. n]. *)
Definition slice_index (n : nat) (k : Z) : nat :=
  if k <? 0 then Z.to_nat (Z.max 0 (k + Z.of_nat n))
  else Nat.min (Z.to_nat k) n.

(** [l[:k]] *)
Definition slice_to {A} (l : list A) (k : Z) : list A :=
  take (slice_index (length l) k) l.

(** [l[k:]] *)
Definition slice_from {A} (l : list A) (k : Z) : list A :=
  drop (slice_index (length l) k) l.

(** [l[i:j]] *)
Definition slice {A} (l : list A) (i j : Z) : list A :=
  take (slice_index (length l) j - slice_index (length l) i)%nat
       (drop (slice_index (length l) i) l).

(** [[x] * n]: empty when [n <= 0]. *)
Definition repeat_list {A} (x : A) (n : Z) : list A :=
  replicate (Z.to_nat n) x.

(** [list.sort] only ever asks [__lt__] of the elements and is stable.
    It is modelled by a stable insertion sort driven by [lt]: each
    element, taken left to right, goes in front of the first element
    of the sorted prefix it is less than.  For [reverse=True] the list
    is reversed, sorted upwards and reversed again, which is how
    stability of the descending sort is obtained.  When the answers of
    [lt] on the elements are those of a strict weak order, every stable
    sort returns this very list. *)
Section Sort.
Context {A : Type} (lt : A → A → bool).

Fixpoint insert_sorted (x : A) (l : list A) : list A :=
  match l with
  | [] => [x]
  | y :: t => if lt x y then x :: y :: t else y :: insert_sorted x t
  end.

Fixpoint sort_into (sorted : list A) (l : list A) : list A :=
  match l with
  | [] => sorted
  | x :: t => sort_into (insert_sorted x sorted) t
  end.

Definition sort (l : list A) : list A := sort_into [] l.

Definition sort_reverse (l : list A) : list A :=
  reverse (sort (reverse l)).
End Sort.

End Py.

(** ** Edit model *)

(** Lines [starting_line] (inclusive) to [ending_line] (exclusive) are
    to be replaced with [new_lines]. *)
Record Replacement : Type := mkReplacement {
  starting_line : Z;
  ending_line : Z;
  new_lines : list string
}.

(** [Replacement.__lt__] *)
Definition Replacement_lt (self other : Replacement) : bool :=
  (ending_line self <? ending_line other)
  || ((ending_line self =? ending_line other)
      && (starting_line self <? ending_line other)).

Abbreviation Path := string.

Record FileEdit : Type := mkFileEdit {
  file_path : Path;
  replacements : list Replacement;
  is_creation : bool;
  is_deletion : bool;
  rename_file_path : option Path
}.

(** ** Conflict resolver: [FileEdit.resolve_conflicts] *)

(** The guard of the first branch of the inner loop. *)
Definition overlap_conflict (replacement other : Replacement) : bool :=
  (ending_line other >? starting_line replacement)
  && (starting_line other <? ending_line replacement).

(** The guard of the [elif] branch; that branch only prints a notice. *)
Definition insertion_conflict (replacement other : Replacement) : bool :=
  (ending_line other =? starting_line other)
  && (ending_line replacement =? starting_line replacement)
  && (starting_line replacement =? starting_line other).

(** One pass of the inner loop body over [other]: its final fields. *)
Definition resolve_other (replacement other : Replacement) : Replacement :=
  if overlap_conflict replacement other then
    let ending := starting_line replacement in
    {| starting_line := Z.min (starting_line other) ending;
       ending_line := ending;
       new_lines := new_lines other |}
  else other.

(** One iteration of the outer loop at [index]: every element of
    [self.replacements[index + 1:]] is resolved against
    [self.replacements[index]]. *)
Definition resolve_at (l : list Replacement) (index : nat) : list Replacement :=
  match l !! index with
  | Some replacement =>
      take (S index) l ++ (resolve_other replacement <$> drop (S index) l)
  | None => l
  end.

Definition resolve_loop (l : list Replacement) : list Replacement :=
  foldl resolve_at l (seq 0 (length l)).

Definition resolve_conflicts_list (l : list Replacement) : list Replacement :=
  resolve_loop (Py.sort_reverse Replacement_lt l).

Definition resolve_conflicts (self : FileEdit) : FileEdit :=
  {| file_path := file_path self;
     replacements := resolve_conflicts_list (replacements self);
     is_creation := is_creation self;
     is_deletion := is_deletion self;
     rename_file_path := rename_file_path self |}.

(** ** Applier: [FileEdit.get_updated_file_lines] *)

Definition overlap_error : exn :=
  MentatError "Error: Line overlap in Replacements".

Fixpoint apply_loop (earliest_line : option Z) (file_lines : list string)
    (rs : list Replacement) : result (list string) :=
  match rs with
  | [] => Ok file_lines
  | replacement :: rest =>
      if match earliest_line with
         | Some earliest => ending_line replacement >? earliest
         | None => false
         end
      then Raise overlap_error
      else
        let file_lines :=
          if ending_line replacement >? Py.len file_lines
          then file_lines
               ++ Py.repeat_list ""%string
                    (ending_line replacement - Py.len file_lines)
          else file_lines in
        apply_loop (Some (starting_line replacement))
          (Py.slice_to file_lines (starting_line replacement)
           ++ new_lines replacement
           ++ Py.slice_from file_lines (ending_line replacement))
          rest
  end.

Definition get_updated_file_lines_list (rs : list Replacement)
    (file_lines : list string) : result (list string) :=
  apply_loop None file_lines (Py.sort_reverse Replacement_lt rs).

Definition get_updated_file_lines (self : FileEdit)
    (file_lines : list string) : result (list string) :=
  get_updated_file_lines_list (replacements self) file_lines.

(** ** Collaborators of the validity check and of the review workflow *)

(** What [is_valid] asks of the operating system: [Path.exists] and
    [os.path.relpath]. *)
Record OS : Type := mkOS {
  path_exists : Path → bool;
  relpath : Path → Path → Path
}.

Record ConfigManager : Type := mkConfigManager {
  git_root : Path
}.

(** [code_file_manager.file_lines]: the tracked files, keyed by their
    path relative to the git root. *)
Record CodeFileManager : Type := mkCodeFileManager {
  file_lines : gmap string (list string)
}.

Definition set_rename_file_path (self : FileEdit) (p : option Path) : FileEdit :=
  {| file_path := file_path self;
     replacements := replacements self;
     is_creation := is_creation self;
     is_deletion := is_deletion self;
     rename_file_path := p |}.

Definition set_replacements (self : FileEdit) (rs : list Replacement) : FileEdit :=
  {| file_path := file_path self;
     replacements := rs;
     is_creation := is_creation self;
     is_deletion := is_deletion self;
     rename_file_path := rename_file_path self |}.

(** ** Validity check: [FileEdit.is_valid]

    Returns the answer together with [self] as the call leaves it. *)

Definition cancel_existing_rename (os : OS) (self : FileEdit) : FileEdit :=
  match rename_file_path self with
  | Some target =>
      if path_exists os target then set_rename_file_path self None else self
  | None => self
  end.

Definition is_valid (os : OS) (self : FileEdit)
    (code_file_manager : CodeFileManager) (config : ConfigManager)
    : bool * FileEdit :=
  let rel_path := relpath os (file_path self) (git_root config) in
  if is_creation self then
    if path_exists os (file_path self) then (false, self)
    else (true, cancel_existing_rename os self)
  else
    if negb (path_exists os (file_path self)) then (false, self)
    else
      match file_lines code_file_manager !! rel_path with
      | None => (false, self)
      | Some _ => (true, cancel_existing_rename os self)
      end.

(** [await value] where [value] is a [bool]: a [bool] is not awaitable,
    so the expression raises [TypeError] whatever the value is. *)
Definition await_bool (value : bool) : result bool := Raise TypeError.

(** The filter of [Session._main],
    [[file_edit for file_edit in file_edits if await file_edit.is_valid(...)]]:
    the list that would go on to [get_user_feedback_on_edits], and from
    there to the applier.  [is_valid] is a plain method, so for each
    edit the call runs to its end and its [bool] is then awaited. *)
Fixpoint valid_file_edits (os : OS) (code_file_manager : CodeFileManager)
    (config : ConfigManager) (file_edits : list FileEdit)
    : result (list FileEdit) :=
  match file_edits with
  | [] => Ok []
  | file_edit :: rest =>
      let '(answer, file_edit') :=
        is_valid os file_edit code_file_manager config in
      match await_bool answer with
      | Raise e => Raise e
      | Ok keep =>
          match valid_file_edits os code_file_manager config rest with
          | Raise e => Raise e
          | Ok kept => Ok (if keep then file_edit' :: kept else kept)
          end
      end
  end.

(** ** Review workflow: [FileEdit.filter_replacements] *)

Inductive FileActionType : Type :=
  | CreateFile | DeleteFile | RenameFile | UpdateFile.

(** The arguments the calls in [file_edit.py] pass to
    [DisplayInformation], in their order. *)
Record DisplayInformation : Type := mkDisplayInformation {
  file_name : Path;
  display_file_lines : list string;
  added_block : list string;
  removed_block : list string;
  file_action_type : FileActionType;
  first_changed_line : option Z;
  last_changed_line : option Z;
  new_name : option Path
}.

(** The terminal as the workflow sees it: the prompts shown so far and
    the replies the user is still going to type.  [None] is an empty
    reply. *)
Record UserIO : Type := mkUserIO {
  prompts : list (DisplayInformation * string);
  answers : list (option bool)
}.

Definition Ask (A : Type) : Type := UserIO → A * UserIO.

Definition ask_ret {A} (a : A) : Ask A := λ io, (a, io).
Definition ask_bind {A B} (m : Ask A) (k : A → Ask B) : Ask B :=
  λ io, let '(a, io') := m io in k a io'.

Notation "x <~ m ;; k" := (ask_bind m (λ x, k))
  (at level 100, m at next level, right associativity).

(** Modelled from the spec: [UserInputManager.ask_yes_no] is not part of
    these sources; it is a yes/no prompt with a caller-specified default
    answer used when the input is empty (also taken when no reply is
    left). *)
Definition ask_yes_no (default_yes : bool) : Ask bool :=
  λ io,
    match answers io with
    | Some reply :: rest => (reply, mkUserIO (prompts io) rest)
    | None :: rest => (default_yes, mkUserIO (prompts io) rest)
    | [] => (default_yes, io)
    end.

(** [_ask_user_change] *)
Definition ask_user_change (display_information : DisplayInformation)
    (text : string) : Ask bool :=
  λ io,
    ask_yes_no true
      (mkUserIO (prompts io ++ [(display_information, text)]) (answers io)).

(** The loop over [self.replacements]; returns [new_replacements]. *)
Fixpoint keep_changes (self : FileEdit) (lines : list string)
    (rs : list Replacement) : Ask (list Replacement) :=
  match rs with
  | [] => ask_ret []
  | replacement :: rest =>
      let removed :=
        Py.slice lines (starting_line replacement) (ending_line replacement) in
      let display_information :=
        mkDisplayInformation (file_path self) lines (new_lines replacement)
          removed UpdateFile (Some (starting_line replacement))
          (Some (ending_line replacement)) (rename_file_path self) in
      keep <~ ask_user_change display_information "Keep this change?" ;;
      kept <~ keep_changes self lines rest ;;
      ask_ret (if keep then replacement :: kept else kept)
  end.

(** From the rename prompt to the end. *)
Definition review_rename_and_changes (self : FileEdit) (lines : list string)
    : Ask (result (bool * FileEdit)) :=
  self <~ match rename_file_path self with
          | Some target =>
              let display_information :=
                mkDisplayInformation (file_path self) [] [] [] RenameFile
                  None None (Some target) in
              rename <~ ask_user_change display_information "Rename this file?" ;;
              ask_ret (if rename then self else set_rename_file_path self None)
          | None => ask_ret self
          end ;;
  new_replacements <~ keep_changes self lines (replacements self) ;;
  let self := set_replacements self new_replacements in
  ask_ret
    (Ok (is_creation self
         || is_deletion self
         || bool_decide (rename_file_path self ≠ None)
         || bool_decide (0 < length (replacements self))%nat,
         self)).

(** From the deletion prompt to the end. *)
Definition review_deletion (self : FileEdit) (lines : list string)
    : Ask (result (bool * FileEdit)) :=
  if is_deletion self then
    let display_information :=
      mkDisplayInformation (file_path self) [] [] lines DeleteFile
        None None None in
    delete <~ ask_user_change display_information "Delete this file?" ;;
    if delete then review_rename_and_changes self lines
    else ask_ret (Ok (false, self))
  else review_rename_and_changes self lines.

Definition filter_replacements (os : OS) (self : FileEdit)
    (code_file_manager : CodeFileManager) (config : ConfigManager)
    : Ask (result (bool * FileEdit)) :=
  if is_creation self then
    let display_information :=
      mkDisplayInformation (file_path self) [] [] [] CreateFile
        None None None in
    create <~ ask_user_change display_information "Create this file?" ;;
    if create then review_deletion self []
    else ask_ret (Ok (false, self))
  else
    let rel_path := relpath os (file_path self) (git_root config) in
    match file_lines code_file_manager !! rel_path with
    | Some lines => review_deletion self lines
    | None => ask_ret (Raise KeyError)
    end.

(** ** Streaming printer: [StreamingPrinter] *)

Record StreamingPrinter : Type := mkStreamingPrinter {
  strings_to_print : list string;
  chars_remaining : Z;
  shutdown : bool
}.

(** [__init__] *)
Definition new_printer : StreamingPrinter :=
  {| strings_to_print := []; chars_remaining := 0; shutdown := false |}.

(** [list(string)]: one string per character. *)
Fixpoint characters_of (s : string) : list string :=
  match s with
  | EmptyString => []
  | String c rest => String c EmptyString :: characters_of rest
  end.

(** [add_string].  [colored] is termcolor's function.  The call raises
    [ValueError] when [colored_string.index(string)] finds nothing; that
    happens before any field is written. *)
Definition add_string (colored : string → string → string)
    (self : StreamingPrinter) (string_ end_ : string) (color : option string)
    : result StreamingPrinter :=
  if shutdown self then Ok self
  else if (String.length string_ =? 0)%nat then Ok self
  else
    let string_ := (string_ ++ end_)%string in
    let colored_string :=
      match color with
      | Some c => colored string_ c
      | None => string_
      end in
    match String.index 0 string_ colored_string with
    | None => Raise ValueError
    | Some index =>
        let characters := characters_of string_ in
        let characters :=
          alter (λ c, (String.substring 0 index colored_string ++ c)%string)
                0%nat characters in
        let after := (index + String.length string_)%nat in
        let characters :=
          alter (λ c, (c ++ String.substring after
                              (String.length colored_string - after)
                              colored_string)%string)
                (length characters - 1)%nat characters in
        Ok {| strings_to_print := strings_to_print self ++ characters;
              chars_remaining := chars_remaining self + Py.len characters;
              shutdown := shutdown self |}
    end.

(** The divisor of [sleep_time]. *)
Definition sleep_divisor (self : StreamingPrinter) : Z :=
  chars_remaining self + 1.

(** [sleep_time], with the decimal constants read as exact rationals.
    Dividing by zero raises. *)
Definition sleep_time (self : StreamingPrinter) : result Q :=
  let max_finish_time := 1%Q in
  if sleep_divisor self =? 0 then Raise ZeroDivisionError
  else
    let required_sleep_time := (max_finish_time / inject_Z (sleep_divisor self))%Q in
    let max_sleep := if shutdown self then (2 # 1000)%Q else (6 # 1000)%Q in
    let min_sleep := (2 # 1000)%Q in
    Ok (Qmax (Qmin max_sleep required_sleep_time) min_sleep).

(** [wrap_it_up] *)
Definition wrap_it_up (self : StreamingPrinter) : StreamingPrinter :=
  {| strings_to_print := strings_to_print self;
     chars_remaining := chars_remaining self;
     shutdown := true |}.

(** Where the [print_lines] coroutine stands: at the top of its loop,
    suspended in [await stream.send(next_string)], suspended in
    [await asyncio.sleep(t)], returned after [break], or ended by an
    exception. *)
Inductive Location : Type :=
  | AtLoopTop
  | AwaitSend (next_string : string)
  | AwaitSleep (t : Q)
  | Returned
  | Failed (e : exn).

(** The printer object, the coroutine and what the session stream has
    received. *)
Record PrinterTask : Type := mkPrinterTask {
  printer : StreamingPrinter;
  location : Location;
  sent : list string
}.

Definition start_print_lines (p : StreamingPrinter) : PrinterTask :=
  {| printer := p; location := AtLoopTop; sent := [] |}.

(** [await asyncio.sleep(self.sleep_time())]: evaluate the argument and
    suspend. *)
Definition enter_sleep (p : StreamingPrinter) (out : list string) : PrinterTask :=
  match sleep_time p with
  | Ok t => {| printer := p; location := AwaitSleep t; sent := out |}
  | Raise e => {| printer := p; location := Failed e; sent := out |}
  end.

(** The coroutine runs from where it stands to its next suspension
    point. *)
Definition resume_print_lines (task : PrinterTask) : PrinterTask :=
  let p := printer task in
  match location task with
  | AtLoopTop =>
      if shutdown p then
        {| printer := p; location := Returned; sent := sent task |}
      else
        match strings_to_print p with
        | next_string :: rest =>
            {| printer := {| strings_to_print := rest;
                             chars_remaining := chars_remaining p;
                             shutdown := shutdown p |};
               location := AwaitSend next_string;
               sent := sent task |}
        | [] => enter_sleep p (sent task)
        end
  | AwaitSend next_string =>
      enter_sleep {| strings_to_print := strings_to_print p;
                     chars_remaining := chars_remaining p - 1;
                     shutdown := shutdown p |}
                  (sent task ++ [next_string])
  | AwaitSleep _ =>
      {| printer := p; location := AtLoopTop; sent := sent task |}
  | Returned | Failed _ => task
  end.

(** What can happen to a printer whose drain loop is running: the
    producer calls [add_string] or [wrap_it_up], or the event loop
    resumes the coroutine. *)
Inductive Event : Type :=
  | CallAddString (string_ end_ : string) (color : option string)
  | CallWrapItUp
  | Resume.

Definition with_printer (task : PrinterTask) (p : StreamingPrinter) : PrinterTask :=
  {| printer := p; location := location task; sent := sent task |}.

Definition handle (colored : string → string → string) (task : PrinterTask)
    (ev : Event) : PrinterTask :=
  match ev with
  | CallAddString string_ end_ color =>
      match add_string colored (printer task) string_ end_ color with
      | Ok p => with_printer task p
      | Raise _ => task
      end
  | CallWrapItUp => with_printer task (wrap_it_up (printer task))
  | Resume => resume_print_lines task
  end.

Definition run (colored : string → string → string) (task : PrinterTask)
    (evs : list Event) : PrinterTask :=
  foldl (handle colored) task evs.

(** ** Vocabulary of the properties *)

(** Line [x] lies in the half-open range of [r]. *)
Definition in_range (x : Z) (r : Replacement) : Prop :=
  starting_line r <= x < ending_line r.

(** The ranges of [a] and [b] have no line in common. *)
Definition ranges_disjoint (a b : Replacement) : Prop :=
  ∀ x, ¬ (in_range x a ∧ in_range x b).

Definition ranges_disjointb (a b : Replacement) : bool :=
  Z.min (ending_line a) (ending_line b)
  <=? Z.max (starting_line a) (starting_line b).

(** The invariant of the data model on one range. *)
Definition valid_range (r : Replacement) : Prop :=
  starting_line r <= ending_line r.

(** The resolver finds nothing to do on the pair. *)
Definition no_conflict (a b : Replacement) : Prop :=
  overlap_conflict a b = false.

(** The preorder the descending sort really follows: by [ending_line],
    and among equal ends a range with [starting_line < ending_line]
    below one without. *)
Definition sort_key_le (a b : Replacement) : Prop :=
  ending_line a < ending_line b
  ∨ (ending_line a = ending_line b
     ∧ (starting_line a < ending_line a ∨ ¬ starting_line b < ending_line b)).

(** What is left of the sorted order while the resolver shrinks ranges:
    [y], later in the list than [x], ends no later than [x], or [x]
    is a valid range. *)
Definition settled (x y : Replacement) : Prop :=
  ending_line y <= ending_line x ∨ starting_line x <= ending_line x.

(** Each range ends where the one applied before it starts, or earlier. *)
Fixpoint back_to_front (earliest : Z) (rs : list Replacement) : Prop :=
  match rs with
  | [] => True
  | r :: rest => ending_line r <= earliest ∧ back_to_front (starting_line r) rest
  end.

(** Some range ends after the smallest [starting_line] of the ranges in
    front of it. *)
Fixpoint residual_overlap (smallest : option Z) (rs : list Replacement) : bool :=
  match rs with
  | [] => false
  | r :: rest =>
      match smallest with
      | Some m =>
          (ending_line r >? m)
          || residual_overlap (Some (Z.min m (starting_line r))) rest
      | None => residual_overlap (Some (starting_line r)) rest
      end
  end.

(** One more character is counted than queued while a dequeued string
    is being sent. *)
Definition in_flight (loc : Location) : Z :=
  match loc with
  | AwaitSend _ => 1
  | _ => 0
  end.

(** The checks of [is_valid] that come before the rename check pass. *)
Definition passes_existence_checks (os : OS) (self : FileEdit)
    (code_file_manager : CodeFileManager) (config : ConfigManager) : Prop :=
  if is_creation self then path_exists os (file_path self) = false
  else path_exists os (file_path self) = true
       ∧ is_Some (file_lines code_file_manager
                    !! relpath os (file_path self) (git_root config)).

(** The drain loop counts what is queued, plus the string being sent,
    and has not died of an exception. *)
Definition counts_queue (task : PrinterTask) : Prop :=
  chars_remaining (printer task)
  = Py.len (strings_to_print (printer task)) + in_flight (location task)
  ∧ ∀ e, location task ≠ Failed e.

(** The default [end] of [add_string]. *)
Definition newline : string := String (Ascii.ascii_of_nat 10) EmptyString.

(** What the resolver may do to one replacement: leave its new lines,
    and move neither bound up, the new range lying within the old. *)
Definition shrunk (before after : Replacement) : Prop :=
  new_lines after = new_lines before
  ∧ starting_line after <= starting_line before
  ∧ ending_line after <= ending_line before
  ∧ ∀ x, in_range x after → in_range x before.

(** The buffer with lines [starting_line .. ending_line) of it replaced
    by the new lines of [r], for a range that lies within the buffer. *)
Definition spliced (lines : list string) (r : Replacement) : list string :=
  take (Z.to_nat (starting_line r)) lines
  ++ new_lines r
  ++ drop (Z.to_nat (ending_line r)) lines.

(** What a review may turn an edit into: the path and the flags stay,
    the replacements are some of the old ones in their old order, and
    the rename target is the old one or none. *)
Definition reviewed (before after : FileEdit) : Prop :=
  file_path after = file_path before
  ∧ is_creation after = is_creation before
  ∧ is_deletion after = is_deletion before
  ∧ replacements after `sublist_of` replacements before
  ∧ (rename_file_path after = rename_file_path before
     ∨ rename_file_path after = None).

(** The value [filter_replacements] returns when it gets to its end. *)
Definition has_changes (self : FileEdit) : bool :=
  is_creation self
  || is_deletion self
  || bool_decide (rename_file_path self ≠ None)
  || bool_decide (0 < length (replacements self))%nat.

(** The number of prompts of a review nobody cuts short. *)
Definition full_review_prompts (self : FileEdit) : nat :=
  ((if is_creation self then 1 else 0)
   + (if is_deletion self then 1 else 0)
   + (if rename_file_path self is Some _ then 1 else 0)
   + length (replacements self))%nat.

(** The text a list of queued pieces spells. *)
Definition joined (pieces : list string) : string :=
  foldr String.append EmptyString pieces.

(** Everything the printer has been given and has not lost sight of, in
    the order of the stream: what was sent, what is being sent, what is
    queued. *)
Definition stream_order (task : PrinterTask) : list string :=
  sent task
  ++ match location task with
     | AwaitSend next_string => [next_string]
     | _ => []
     end
  ++ strings_to_print (printer task).

(** ** Commands: [mentat/commands.py] *)

(** The subclasses of [Command], in the order the module declares
    them. *)
Inductive CommandClass : Type :=
  | InvalidCommand
  | HelpCommand
  | CommitCommand
  | IncludeCommand
  | ExcludeCommand
  | UndoCommand
  | UndoAllCommand
  | ClearCommand
  | SearchCommand.

(** A [dict] keyed by strings, in insertion order: setting a key that is
    there replaces its value in place, setting a new key appends. *)
Fixpoint dict_get {V} (d : list (string * V)) (key : string) : option V :=
  match d with
  | [] => None
  | (k, v) :: rest => if String.eqb k key then Some v else dict_get rest key
  end.

Fixpoint dict_set {V} (d : list (string * V)) (key : string) (v : V)
    : list (string * V) :=
  match d with
  | [] => [(key, v)]
  | (k, v') :: rest =>
      if String.eqb k key then (k, v) :: rest
      else (k, v') :: dict_set rest key v
  end.

Definition dict_keys {V} (d : list (string * V)) : list string := d.*1.

(** [Command.__init_subclass__] on the registry *)
Definition init_subclass (registered : list (string * CommandClass))
    (cls : CommandClass) (command_name : option string)
    : list (string * CommandClass) :=
  match command_name with
  | Some name => dict_set registered name cls
  | None => registered
  end.

(** [Command._registered_commands] once the module is loaded: every
    class statement has run [__init_subclass__] with its
    [command_name]. *)
Definition registered_commands : list (string * CommandClass) :=
  foldl (λ registered '(cls, command_name),
           init_subclass registered cls command_name)
        []
        [(InvalidCommand, None);
         (HelpCommand, Some "help"%string);
         (CommitCommand, Some "commit"%string);
         (IncludeCommand, Some "include"%string);
         (ExcludeCommand, Some "exclude"%string);
         (UndoCommand, Some "undo"%string);
         (UndoAllCommand, Some "undo-all"%string);
         (ClearCommand, Some "clear"%string);
         (SearchCommand, Some "search"%string)].

(** A command object: [InvalidCommand(invalid_name)], or [command_cls()]
    for a class of the registry. *)
Inductive Command : Type :=
  | NewInvalidCommand (invalid_name : string)
  | NewCommand (cls : CommandClass).

(** [Command.create_command] *)
Definition create_command (registered : list (string * CommandClass))
    (command_name : string) : Command :=
  match dict_get registered command_name with
  | None => NewInvalidCommand command_name
  | Some command_cls => NewCommand command_cls
  end.

(** [Command.get_command_completions] *)
Definition get_command_completions
    (registered : list (string * CommandClass)) : list string :=
  (λ name, "/" +:+ name) <$> dict_keys registered.

Definition default_message : string := "Automatic commit".

(** [argument_names] of each class *)
Definition argument_names (cls : CommandClass) : result (list string) :=
  match cls with
  | InvalidCommand =>
      Raise (MentatError "Argument names called on invalid command")
  | HelpCommand => Ok []
  | CommitCommand => Ok ["commit_message=" +:+ default_message]
  | IncludeCommand => Ok ["file1"; "file2"; "..."]%string
  | ExcludeCommand => Ok ["file1"; "file2"; "..."]%string
  | UndoCommand => Ok []
  | UndoAllCommand => Ok []
  | ClearCommand => Ok []
  | SearchCommand => Ok ["search_query"%string]
  end.

(** [help_message] of each class *)
Definition help_message (cls : CommandClass) : result string :=
  match cls with
  | InvalidCommand =>
      Raise (MentatError "Help message called on invalid command")
  | HelpCommand => Ok "Displays this message"%string
  | CommitCommand =>
      Ok "Commits all of your unstaged and staged changes to git"%string
  | IncludeCommand => Ok "Add files to the code context"%string
  | ExcludeCommand => Ok "Remove files from the code context"%string
  | UndoCommand => Ok "Undo the last change made by Mentat"%string
  | UndoAllCommand => Ok "Undo all changes made by Mentat"%string
  | ClearCommand =>
      Ok "Clear the current conversation's message history"%string
  | SearchCommand => Ok "Semantic search of files in code context."%string
  end.

Definition help_message_width : nat := 60.

(** [s.ljust(width)] *)
Definition ljust (s : string) (width : nat) : string :=
  s +:+ joined (replicate (width - String.length s) " "%string).

(** A message handed to [stream.send], with its color. *)
Definition Message : Type := string * option string.

(** The body of the loop of [HelpCommand.apply] for one name. *)
Definition help_line (registered : list (string * CommandClass))
    (command_name : string) : result Message :=
  match dict_get registered command_name with
  | None =>
      Ok ("Error: Command " +:+ command_name +:+ " does not exist.",
          Some "red"%string)
  | Some command_class =>
      match argument_names command_class with
      | Raise e => Raise e
      | Ok arguments =>
          match help_message command_class with
          | Raise e => Raise e
          | Ok help =>
              Ok (ljust
                    (String.concat " "
                       (("/" +:+ command_name)
                        :: ((λ arg, "<" +:+ arg +:+ ">") <$> arguments)))
                    help_message_width
                  +:+ help,
                  None)
          end
      end
  end.

(** The loop of [HelpCommand.apply]: the messages sent, and the
    exception that ended the loop if one did. *)
Fixpoint help_lines (registered : list (string * CommandClass))
    (commands : list string) : list Message * option exn :=
  match commands with
  | [] => ([], None)
  | command_name :: rest =>
      match help_line registered command_name with
      | Raise e => ([], Some e)
      | Ok message =>
          let '(messages, raised) := help_lines registered rest in
          (message :: messages, raised)
      end
  end.

(** [HelpCommand.apply] *)
Definition HelpCommand_apply (registered : list (string * CommandClass))
    (args : list string) : list Message * option exn :=
  let commands :=
    match args with
    | [] => dict_keys registered
    | _ => args
    end in
  help_lines registered commands.

(** ** Engine: the exit flags of [MentatEngine] *)

Record MentatEngine : Type := mkMentatEngine {
  should_exit : bool;
  force_exit : bool
}.

(** The flags as [__init__] sets them. *)
Definition new_engine : MentatEngine :=
  {| should_exit := false; force_exit := false |}.

(** [_handle_exit], the handler of SIGINT and SIGTERM *)
Definition handle_exit (self : MentatEngine) : MentatEngine :=
  if should_exit self then
    {| should_exit := should_exit self; force_exit := true |}
  else
    {| should_exit := true; force_exit := force_exit self |}.

(** ** Completions: the indexes of [SyntaxCompletions] *)

(** What [open], [read] and [os.path.getmtime] raise. *)
Inductive os_error : Type :=
  | FileNotFoundError
  | NotADirectoryError
  | OtherOSError.

Inductive failure : Type :=
  | OSError (e : os_error)
  | PyError (e : exn).

(** What [refresh_completions] asks of its surroundings: the text of a
    file, its modification time, [Path.name], the tokens pygments finds
    in a text ([None] when [guess_lexer_for_filename] raises
    [ClassNotFound]), whether a token type lies in [Token.Name], the
    files of the code context in their order, and the clock. *)
Record Surroundings : Type := mkSurroundings {
  read_text : Path → os_error + string;
  getmtime : Path → os_error + Z;
  path_name : Path → string;
  get_tokens : Path → string → option (list (string * string));
  in_Token_Name : string → bool;
  context_files : list Path;
  utcnow : Z
}.

Record SyntaxCompletion : Type := mkSyntaxCompletion {
  words : gset string;
  created_at : Z
}.

Record SyntaxCompletions : Type := mkSyntaxCompletions {
  syntax_completions : gmap string SyntaxCompletion;
  file_name_completions : gmap string (gset string);
  all_syntax_words : gset string;
  last_refresh_at : Z
}.

(** [refresh_completions_for_file_path].  [default_created_at] is the
    default of the field [created_at], which the class statement
    computes once; no call passes another value. *)
Definition refresh_completions_for_file_path (env : Surroundings)
    (default_created_at : Z) (self : SyntaxCompletions) (file_path : Path)
    : SyntaxCompletions * option failure :=
  match read_text env file_path with
  | inl FileNotFoundError | inl NotADirectoryError => (self, None)
  | inl e => (self, Some (OSError e))
  | inr file_content =>
      match get_tokens env file_path file_content with
      | None => (self, None)
      | Some tokens =>
          let name := path_name env file_path in
          let names :=
            <[name := default ∅ (file_name_completions self !! name)
                      ∪ {[file_path]}]>
              (file_name_completions self) in
          let filtered_tokens : gset string :=
            list_to_set
              (snd <$> filter (λ token,
                                 in_Token_Name env token.1 = true
                                 ∧ (1 < String.length token.2)%nat)
                              tokens) in
          ({| syntax_completions :=
                <[file_path := mkSyntaxCompletion filtered_tokens
                                 default_created_at]>
                  (syntax_completions self);
              file_name_completions := names;
              all_syntax_words := all_syntax_words self;
              last_refresh_at := last_refresh_at self |},
           None)
      end
  end.

(** The body of the first loop of [refresh_completions] for one key of
    the snapshot of [syntax_completions].  [set.remove] raises
    [KeyError] when the path is not in the set. *)
Definition forget_file_path (env : Surroundings) (self : SyntaxCompletions)
    (file_path : Path) : SyntaxCompletions * option failure :=
  if bool_decide (file_path ∈ context_files env) then (self, None)
  else
    let completions := delete file_path (syntax_completions self) in
    let file_name := path_name env file_path in
    let paths := default ∅ (file_name_completions self !! file_name) in
    if bool_decide (file_path ∈ paths) then
      let paths := paths ∖ {[file_path]} in
      ({| syntax_completions := completions;
          file_name_completions :=
            if bool_decide (size paths = 0%nat)
            then delete file_name (file_name_completions self)
            else <[file_name := paths]> (file_name_completions self);
          all_syntax_words := all_syntax_words self;
          last_refresh_at := last_refresh_at self |},
       None)
    else
      ({| syntax_completions := completions;
          file_name_completions :=
            <[file_name := paths]> (file_name_completions self);
          all_syntax_words := all_syntax_words self;
          last_refresh_at := last_refresh_at self |},
       Some (PyError KeyError)).

(** The body of the second loop for one file of the context. *)
Definition update_file_path (env : Surroundings) (default_created_at : Z)
    (self : SyntaxCompletions) (file_path : Path)
    : SyntaxCompletions * option failure :=
  match syntax_completions self !! file_path with
  | None =>
      refresh_completions_for_file_path env default_created_at self file_path
  | Some completion =>
      match getmtime env file_path with
      | inl e => (self, Some (OSError e))
      | inr modified_at =>
          if created_at completion <? modified_at
          then refresh_completions_for_file_path env default_created_at
                 self file_path
          else (self, None)
      end
  end.

(** A [for] loop whose body may raise: the loop ends at the first
    exception, with the object as the body left it. *)
Fixpoint for_each {S A} (body : S → A → S * option failure) (self : S)
    (items : list A) : S * option failure :=
  match items with
  | [] => (self, None)
  | item :: rest =>
      match body self item with
      | (self, None) => for_each body self rest
      | (self, Some e) => (self, Some e)
      end
  end.

(** [refresh_completions] *)
Definition refresh_completions (env : Surroundings) (default_created_at : Z)
    (self : SyntaxCompletions) : SyntaxCompletions * option failure :=
  match for_each (forget_file_path env) self
          (elements (dom (syntax_completions self))) with
  | (self, Some e) => (self, Some e)
  | (self, None) =>
      match for_each (update_file_path env default_created_at) self
              (context_files env) with
      | (self, Some e) => (self, Some e)
      | (self, None) =>
          ({| syntax_completions := syntax_completions self;
              file_name_completions := file_name_completions self;
              all_syntax_words :=
                map_fold (λ _ completion all_words, all_words ∪ words completion)
                         ∅ (syntax_completions self);
              last_refresh_at := utcnow env |},
           None)
      end
  end.

(** The two maps of a [SyntaxCompletions] before its first refresh. *)
Definition no_completions (since : Z) : SyntaxCompletions :=
  {| syntax_completions := ∅;
     file_name_completions := ∅;
     all_syntax_words := ∅;
     last_refresh_at := since |}.

(** The two indexes agree: a path is listed under a file name exactly
    when it has syntax completions and that is its name, and no file
    name is left with an empty set. *)
Definition indexes_agree (env : Surroundings) (self : SyntaxCompletions)
    : Prop :=
  (∀ name file_path,
     (∃ paths,
        file_name_completions self !! name = Some paths ∧ file_path ∈ paths)
     ↔ is_Some (syntax_completions self !! file_path)
       ∧ path_name env file_path = name)
  ∧ ∀ name, file_name_completions self !! name ≠ Some ∅.

(** No completion word is a single character. *)
Definition words_are_long (self : SyntaxCompletions) : Prop :=
  ∀ file_path completion word,
    syntax_completions self !! file_path = Some completion →
    word ∈ words completion →
    (1 < String.length word)%nat.

(** ** [SearchCommand.apply] *)

Definition SEARCH_RESULT_BATCH_SIZE : nat := 10.

(** The loop over [enumerate(results)].  [show i result] is the line
    the f-string builds for result [i]; a reply is taken from [replies]
    as [ask_yes_no(default_yes=True)] reads it.  Returns the messages
    sent and the replies left. *)
Fixpoint show_results {R} (show : nat → R → string) (i : nat)
    (results : list R) (replies : list (option bool))
    : list Message * list (option bool) :=
  match results with
  | [] => ([], replies)
  | result :: rest =>
      let line : Message := (show i result, None) in
      if (0 <? i)%nat && (i `mod` SEARCH_RESULT_BATCH_SIZE =? 0)%nat then
        let prompt : Message := (newline +:+ "Show More results? ", None) in
        let more := default true (default None (head replies)) in
        let replies := tail replies in
        if more then
          let '(messages, replies) := show_results show (S i) rest replies in
          (line :: prompt :: messages, replies)
        else ([line; prompt], replies)
      else
        let '(messages, replies) := show_results show (S i) rest replies in
        (line :: messages, replies)
  end.

(** [SearchCommand.apply].  [search query] is [code_context.search]:
    the results, or the text of the [UserError] it raises. *)
Definition SearchCommand_apply {R} (search : string → string + list R)
    (show : nat → R → string) (args : list string)
    (replies : list (option bool)) : list Message * list (option bool) :=
  match args with
  | [] =>
      ([("No search query specified" +:+ newline, Some "yellow"%string)],
       replies)
  | _ =>
      let query := String.concat " " args in
      match search query with
      | inl error => ([(error, Some "red"%string)], replies)
      | inr results =>
          let '(messages, replies) := show_results show 0 results replies in
          (messages ++ [("Search complete"%string, Some "green"%string)],
           replies)
      end
  end.

(** ** The scripted user of the exercism benchmark *)





(** A sorted list is in applying order when each range ends where the
    range in front of it starts, or earlier. *)
Definition in_applying_order (sorted : list Replacement) : Prop :=
  match sorted with
  | [] => True
  | first :: rest => back_to_front (starting_line first) rest
  end.

(** * Properties *)

(** ** The sort *)

Section SortFacts.
Context {A : Type} (lt : A → A → bool).

Lemma insert_sorted_perm x l : Py.insert_sorted lt x l ≡ₚ x :: l.
Proof.
  induction l as [|y t IH]; simpl; [done|].
  destruct (lt x y); [done|].
  rewrite IH. apply Permutation_swap.
Qed.

Lemma sort_into_perm acc l : Py.sort_into lt acc l ≡ₚ acc ++ l.
Proof.
  revert acc; induction l as [|x t IH]; intros acc; simpl.
  - by rewrite app_nil_r.
  - rewrite IH, insert_sorted_perm. apply Permutation_middle.
Qed.

Lemma sort_reverse_perm l : Py.sort_reverse lt l ≡ₚ l.
Proof.
  unfold Py.sort_reverse, Py.sort.
  by rewrite reverse_Permutation, sort_into_perm, reverse_Permutation.
Qed.

Context (le : relation A).
Hypothesis lt_le : ∀ x y, lt x y = true → le x y.
Hypothesis ge_le : ∀ x y, lt x y = false → le y x.

Lemma insert_sorted_HdRel x y l :
  le y x → HdRel le y l → HdRel le y (Py.insert_sorted lt x l).
Proof.
  intros Hyx [|z t Hyz]; simpl; [by constructor|].
  destruct (lt x z); by constructor.
Qed.

Lemma insert_sorted_Sorted x l :
  Sorted le l → Sorted le (Py.insert_sorted lt x l).
Proof.
  induction 1 as [|y t Ht IH Hhd]; simpl.
  - repeat constructor.
  - destruct (lt x y) eqn:Hxy.
    + repeat constructor; auto.
    + constructor; [done|]. apply insert_sorted_HdRel; auto.
Qed.

Lemma sort_into_Sorted acc l :
  Sorted le acc → Sorted le (Py.sort_into lt acc l).
Proof.
  revert acc; induction l as [|x t IH]; intros acc Hacc; simpl; [done|].
  apply IH, insert_sorted_Sorted, Hacc.
Qed.

Lemma sort_reverse_Sorted l : Sorted (flip le) (Py.sort_reverse lt l).
Proof. apply Sorted_reverse, sort_into_Sorted. constructor. Qed.
End SortFacts.

(** A relation that holds between every element and every later one
    holds the same way after any reordering, when it is symmetric. *)
Lemma StronglySorted_symmetric_perm {A} (R : relation A) `{!Symmetric R} l l' :
  l ≡ₚ l' → StronglySorted R l → StronglySorted R l'.
Proof.
  induction 1 as [|x l l' Hp IH|x y l|l l' l'' _ IH1 _ IH2]; intros Hs.
  - done.
  - apply StronglySorted_cons in Hs as [Hx Hl].
    apply StronglySorted_cons. split; [by rewrite <-Hp | auto].
  - apply StronglySorted_cons in Hs as [Hy Hs].
    apply StronglySorted_cons in Hs as [Hx Hl].
    apply Forall_cons in Hy as [Hyx Hy].
    repeat (apply StronglySorted_cons; split); auto.
  - auto.
Qed.

Lemma StronglySorted_weaken {A} (R1 R2 : relation A) l :
  (∀ x y, R1 x y → R2 x y) → StronglySorted R1 l → StronglySorted R2 l.
Proof.
  intros HR Hs. rewrite <-(list_fmap_id l).
  by apply (StronglySorted_fmap id R1 R2).
Qed.

(** ** The order on replacements *)

Lemma Replacement_lt_spec a b :
  Replacement_lt a b = true ↔
  ending_line a < ending_line b
  ∨ (ending_line a = ending_line b ∧ starting_line a < ending_line a).
Proof. unfold Replacement_lt. lia. Qed.

Lemma Replacement_lt_key a b : Replacement_lt a b = true → sort_key_le a b.
Proof. rewrite Replacement_lt_spec. unfold sort_key_le. lia. Qed.

Lemma Replacement_ge_key a b : Replacement_lt a b = false → sort_key_le b a.
Proof.
  intros H. apply not_true_iff_false in H. rewrite Replacement_lt_spec in H.
  unfold sort_key_le. lia.
Qed.

#[local] Instance sort_key_le_trans : Transitive (flip sort_key_le).
Proof. intros a b c. unfold flip, sort_key_le. lia. Qed.

Lemma sort_reverse_descending l :
  Sorted (flip sort_key_le) (Py.sort_reverse Replacement_lt l).
Proof.
  apply sort_reverse_Sorted; auto using Replacement_lt_key, Replacement_ge_key.
Qed.

Lemma sort_reverse_settled l :
  StronglySorted settled (Py.sort_reverse Replacement_lt l).
Proof.
  apply (StronglySorted_weaken (flip sort_key_le)).
  - intros x y. unfold flip, sort_key_le, settled. lia.
  - apply Sorted_StronglySorted; [apply _|apply sort_reverse_descending].
Qed.

(** ** The conflict resolver *)

Lemma overlap_conflict_spec r o :
  overlap_conflict r o = true ↔
  starting_line r < ending_line o ∧ starting_line o < ending_line r.
Proof. unfold overlap_conflict. lia. Qed.

Lemma no_conflict_spec r o :
  no_conflict r o ↔
  ending_line o <= starting_line r ∨ ending_line r <= starting_line o.
Proof.
  unfold no_conflict. rewrite <-not_true_iff_false, overlap_conflict_spec. lia.
Qed.

#[local] Instance no_conflict_sym : Symmetric no_conflict.
Proof. intros a b. rewrite !no_conflict_spec. lia. Qed.

Lemma no_conflict_disjoint a b : no_conflict a b → ranges_disjoint a b.
Proof.
  rewrite no_conflict_spec. unfold ranges_disjoint, in_range. intros H x. lia.
Qed.

Lemma ranges_disjointb_spec a b :
  ranges_disjointb a b = true ↔ ranges_disjoint a b.
Proof.
  unfold ranges_disjointb, ranges_disjoint, in_range. split.
  - intros H x. lia.
  - intros H. apply Z.leb_le. apply Z.nlt_ge. intros Hlt.
    apply (H (Z.max (starting_line a) (starting_line b))). lia.
Qed.

(** The three cases of what the inner loop leaves of [other]. *)
Lemma resolve_other_cases r o :
  (overlap_conflict r o = false ∧ resolve_other r o = o)
  ∨ (overlap_conflict r o = true
     ∧ starting_line (resolve_other r o) = Z.min (starting_line o) (starting_line r)
     ∧ ending_line (resolve_other r o) = starting_line r
     ∧ new_lines (resolve_other r o) = new_lines o).
Proof. unfold resolve_other. destruct (overlap_conflict r o); auto. Qed.

Lemma resolve_other_no_conflict r o : no_conflict r (resolve_other r o).
Proof.
  destruct (resolve_other_cases r o) as [[Hc ->]|(_ & _ & He & _)]; [done|].
  apply no_conflict_spec. lia.
Qed.

Lemma resolve_other_id r o : no_conflict r o → resolve_other r o = o.
Proof. unfold no_conflict, resolve_other. by intros ->. Qed.

Lemma resolve_other_settled r x y :
  settled x y → settled (resolve_other r x) (resolve_other r y).
Proof.
  unfold settled.
  destruct (resolve_other_cases r x) as [[_ ->]|(_ & Hs & He & _)];
    destruct (resolve_other_cases r y) as [[_ ->]|(Hc & _ & He' & _)];
    rewrite ?overlap_conflict_spec in *; lia.
Qed.

Lemma resolve_other_settled_r r x o :
  settled x o → settled x (resolve_other r o).
Proof.
  unfold settled.
  destruct (resolve_other_cases r o) as [[_ ->]|(Hc & _ & He & _)];
    rewrite ?overlap_conflict_spec in *; lia.
Qed.

(** Once [o] is clear of a finished range [r1], clipping it against a
    later head [r2] that is itself clear of [r1] keeps it clear. *)
Lemma resolve_other_keeps_clear r1 r2 o :
  no_conflict r1 r2 → settled r1 r2 →
  no_conflict r1 o → settled r1 o →
  settled r2 o →
  no_conflict r1 (resolve_other r2 o).
Proof.
  rewrite !no_conflict_spec. unfold settled.
  destruct (resolve_other_cases r2 o) as [[_ ->]|(Hc & Hs & He & _)]; [lia|].
  rewrite overlap_conflict_spec in Hc. lia.
Qed.

Lemma resolve_at_middle pre r rest :
  resolve_at (pre ++ r :: rest) (length pre)
  = (pre ++ [r]) ++ (resolve_other r <$> rest).
Proof.
  unfold resolve_at. rewrite list_lookup_middle by done.
  rewrite (cons_middle r pre rest), (assoc_L (++)).
  rewrite take_app_length', drop_app_length'; [done|..];
    rewrite length_app; simpl; lia.
Qed.

Lemma foldl_resolve_at_shift n : ∀ pre l,
  length l = n →
  foldl resolve_at (pre ++ l) (seq (length pre) n)
  = pre ++ foldl resolve_at l (seq 0 n).
Proof.
  induction n as [|n IH]; intros pre l Hn; [done|].
  destruct l as [|r rest]; [done|]. simpl in Hn.
  simpl seq. simpl foldl.
  rewrite resolve_at_middle.
  replace (S (length pre)) with (length (pre ++ [r]))
    by (rewrite length_app; simpl; lia).
  rewrite IH by (rewrite length_fmap; lia).
  change (resolve_at (r :: rest) 0) with ([r] ++ (resolve_other r <$> rest)).
  rewrite (IH [r]) by (rewrite length_fmap; lia).
  by rewrite <-(assoc_L (++)).
Qed.

(** The outer loop, head first: the head is final, the tail is resolved
    against it and the loop goes on with the tail. *)
Lemma resolve_loop_cons r rest :
  resolve_loop (r :: rest) = r :: resolve_loop (resolve_other r <$> rest).
Proof.
  unfold resolve_loop. simpl length. simpl seq. simpl foldl.
  change (resolve_at (r :: rest) 0) with ([r] ++ (resolve_other r <$> rest)).
  rewrite (foldl_resolve_at_shift (length rest) [r]) by apply length_fmap.
  by rewrite length_fmap.
Qed.

Lemma resolve_loop_nil : resolve_loop [] = [].
Proof. done. Qed.

(** Induction on the run of the outer loop. *)
Lemma resolve_loop_ind (P : list Replacement → Prop) :
  P [] →
  (∀ r rest, P (resolve_other r <$> rest) → P (r :: rest)) →
  ∀ l, P l.
Proof.
  intros Hnil Hcons l.
  remember (length l) as n eqn:Hn. revert l Hn.
  induction n as [|n IH]; intros [|r rest] Hn; try done.
  apply Hcons, IH. rewrite length_fmap. simpl in Hn. lia.
Qed.

Lemma resolve_loop_length l : length (resolve_loop l) = length l.
Proof.
  induction l as [|r rest IH] using resolve_loop_ind; [done|].
  rewrite resolve_loop_cons. simpl. by rewrite IH, length_fmap.
Qed.

(** A property of single ranges that clipping against a head keeps,
    when that head has the property too, holds of every range the loop
    leaves. *)
Lemma resolve_loop_Forall (P : Replacement → Prop) :
  (∀ r o, P r → P o → settled r o → P (resolve_other r o)) →
  ∀ l, StronglySorted settled l → Forall P l → Forall P (resolve_loop l).
Proof.
  intros Hkeep l.
  induction l as [|r rest IH] using resolve_loop_ind; intros Hs HP; [done|].
  apply StronglySorted_cons in Hs as [Hr Hs].
  apply Forall_cons in HP as [HPr HP].
  rewrite resolve_loop_cons. constructor; [done|]. apply IH.
  - by apply (StronglySorted_fmap _ settled settled), Hs;
      intros x y; apply resolve_other_settled.
  - apply Forall_fmap. rewrite Forall_forall in *. intros o Ho. simpl.
    apply Hkeep; auto.
Qed.

Lemma resolve_loop_clear l :
  StronglySorted settled l → StronglySorted no_conflict (resolve_loop l).
Proof.
  induction l as [|r rest IH] using resolve_loop_ind; intros Hs.
  - constructor.
  - apply StronglySorted_cons in Hs as [Hr Hs].
    assert (StronglySorted settled (resolve_other r <$> rest)) as Hs'.
    { apply (StronglySorted_fmap _ settled settled); [|done].
      intros x y. apply resolve_other_settled. }
    rewrite resolve_loop_cons. apply StronglySorted_cons. split; [|auto].
    apply (Forall_impl (λ o, no_conflict r o ∧ settled r o)); [|tauto].
    apply resolve_loop_Forall; [|done|].
    + intros r2 o [Hc2 Hs2] [Hco Hso] H2o. split.
      * by apply resolve_other_keeps_clear.
      * by apply resolve_other_settled_r.
    + apply Forall_fmap. rewrite Forall_forall in *. intros o Ho. simpl. split.
      * apply resolve_other_no_conflict.
      * apply resolve_other_settled_r. auto.
Qed.

Lemma resolve_loop_fixed l :
  StronglySorted no_conflict l → resolve_loop l = l.
Proof.
  induction l as [|r rest IH]; intros Hs; [done|].
  apply StronglySorted_cons in Hs as [Hr Hs].
  rewrite resolve_loop_cons.
  assert (resolve_other r <$> rest = rest) as ->; [|by rewrite IH].
  rewrite <-(list_fmap_id rest) at 2. apply Forall_fmap_ext_1.
  eapply Forall_impl; [done|]. intros o Ho. by apply resolve_other_id.
Qed.

Lemma resolve_conflicts_list_clear l :
  StronglySorted no_conflict (resolve_conflicts_list l).
Proof. apply resolve_loop_clear, sort_reverse_settled. Qed.

(** On valid ranges the loop clears every pair in whatever order it
    finds the list. *)
Lemma valid_ranges_settled l :
  Forall valid_range l → StronglySorted settled l.
Proof.
  induction 1 as [|x l Hx _ IH]; constructor; [done|].
  apply Forall_forall. intros y _. by right.
Qed.

Lemma resolve_loop_clear_any_order l :
  Forall valid_range l → StronglySorted no_conflict (resolve_loop l).
Proof. intros Hvalid. by apply resolve_loop_clear, valid_ranges_settled. Qed.

Lemma StronglySorted_lookup {A} (R : relation A) l i j a b :
  StronglySorted R l → (i < j)%nat → l !! i = Some a → l !! j = Some b → R a b.
Proof.
  intros Hs. revert i j. induction Hs as [|x l Hs IH Hx]; intros i j Hij Hi Hj.
  - done.
  - destruct j as [|j]; [lia|]. destruct i as [|i]; simpl in *.
    + injection Hi as <-. rewrite Forall_forall in Hx.
      eapply Hx, list_elem_of_lookup_2, Hj.
    + eapply (IH i j); [lia|done..].
Qed.

Lemma StronglySorted_pairs {A} (R : relation A) `{!Symmetric R} l i j a b :
  StronglySorted R l → i ≠ j → l !! i = Some a → l !! j = Some b → R a b.
Proof.
  intros Hs Hij Hi Hj. destruct (decide (i < j)%nat).
  - by eapply (StronglySorted_lookup R l i j).
  - symmetry. eapply (StronglySorted_lookup R l j i); [done|lia|done..].
Qed.

Lemma pairs_StronglySorted {A} (R : relation A) l :
  (∀ i j a b, i ≠ j → l !! i = Some a → l !! j = Some b → R a b) →
  StronglySorted R l.
Proof.
  induction l as [|x l IH]; intros H; constructor.
  - apply IH. intros i j a b Hij Hi Hj. by apply (H (S i) (S j)); [lia|..].
  - apply Forall_forall. intros y Hy.
    apply list_elem_of_lookup in Hy as [j Hj]. by apply (H 0%nat (S j)).
Qed.

(** C1: after [resolve_conflicts] no two replacements of the list have a
    line in common, and a second run changes no replacement: its loop
    leaves every field of every element as it is, so what it returns is
    the resolved list in the order the sort puts it, the other fields of
    the edit being untouched. *)
Theorem resolve_conflicts_disjoint_idempotent (self : FileEdit) :
  let resolved := resolve_conflicts self in
  (∀ i j a b,
     i ≠ j →
     replacements resolved !! i = Some a →
     replacements resolved !! j = Some b →
     ranges_disjoint a b)
  ∧ resolve_loop (Py.sort_reverse Replacement_lt (replacements resolved))
    = Py.sort_reverse Replacement_lt (replacements resolved)
  ∧ replacements (resolve_conflicts resolved) ≡ₚ replacements resolved
  ∧ resolve_conflicts resolved
    = set_replacements resolved
        (Py.sort_reverse Replacement_lt (replacements resolved)).
Proof.
  intros resolved.
  assert (StronglySorted no_conflict (replacements resolved)) as Hclear
    by apply resolve_conflicts_list_clear.
  assert (resolve_loop (Py.sort_reverse Replacement_lt (replacements resolved))
          = Py.sort_reverse Replacement_lt (replacements resolved)) as Hfix.
  { apply resolve_loop_fixed.
    eapply (StronglySorted_symmetric_perm no_conflict); [|exact Hclear].
    symmetry. apply sort_reverse_perm. }
  split; [|split; [|split]].
  - intros i j a b Hij Ha Hb. apply no_conflict_disjoint.
    by eapply (StronglySorted_pairs no_conflict _ i j).
  - exact Hfix.
  - change (replacements (resolve_conflicts resolved))
      with (resolve_loop
              (Py.sort_reverse Replacement_lt (replacements resolved))).
    rewrite Hfix. apply sort_reverse_perm.
  - unfold resolve_conflicts at 1, set_replacements.
    unfold resolve_conflicts_list at 1. by rewrite Hfix.
Qed.

(** C3: at equal [ending_line], [__lt__] compares the left
    [starting_line] with the right [ending_line].  With [a = [3,5)] and
    [b = [1,5)], [a] starts later but [a < b] holds (and so does
    [b < a]), and the descending sort of [[a; b]] puts [b] first. *)
Theorem Replacement_lt_tie_break_ignores_other_start :
  let a := mkReplacement 3 5 [] in
  let b := mkReplacement 1 5 [] in
  ending_line a = ending_line b
  ∧ starting_line a > starting_line b
  ∧ Replacement_lt a b = true
  ∧ Replacement_lt b a = true
  ∧ Py.sort_reverse Replacement_lt [a; b] = [b; a].
Proof. repeat split. Qed.

(** C4, as stated, fails: resolving [[0,5)] and [[3,8)] does not leave
    the ranges [[0,5)] and [[3,3)]. *)
Lemma resolve_0_5_and_3_8_is_not_0_5_and_3_3 :
  ¬ ((λ r, (starting_line r, ending_line r))
       <$> replacements
             (resolve_conflicts
                (mkFileEdit "a.py" [mkReplacement 0 5 []; mkReplacement 3 8 []]
                            false false None))
     ≡ₚ [(0, 5); (3, 3)]).
Proof.
  intros H.
  assert ((3, 8) ∈ [(0, 5); (3, 3)]) as Hin.
  { rewrite <-H. vm_compute. left. }
  by repeat (apply elem_of_cons in Hin as [Hin|Hin]; [discriminate Hin|]);
    apply elem_of_nil in Hin.
Qed.

(** C4, amended: the two overlapping replacements [[0,5)] and [[3,8)],
    in either order, resolve to [[3,8)] and [[0,3)]: the range with the
    higher end is kept and the other one is cut to end where it starts. *)
Theorem resolve_0_5_and_3_8 (path : Path) (creation deletion : bool)
    (rename : option Path) (first_lines second_lines : list string) :
  let first := mkReplacement 0 5 first_lines in
  let second := mkReplacement 3 8 second_lines in
  let resolved :=
    mkFileEdit path [second; mkReplacement 0 3 first_lines]
               creation deletion rename in
  resolve_conflicts (mkFileEdit path [first; second] creation deletion rename)
  = resolved
  ∧ resolve_conflicts (mkFileEdit path [second; first] creation deletion rename)
    = resolved.
Proof. split; reflexivity. Qed.

(** ** The applier *)

Lemma apply_loop_first fl r rest :
  apply_loop None fl (r :: rest)
  = apply_loop (Some (starting_line r))
      (let fl' :=
         if ending_line r >? Py.len fl
         then fl ++ Py.repeat_list ""%string (ending_line r - Py.len fl)
         else fl in
       Py.slice_to fl' (starting_line r) ++ new_lines r
       ++ Py.slice_from fl' (ending_line r))
      rest.
Proof. done. Qed.

Lemma apply_loop_back_to_front rs : ∀ earliest fl,
  back_to_front earliest rs → ∃ out, apply_loop (Some earliest) fl rs = Ok out.
Proof.
  induction rs as [|r rest IH]; intros earliest fl Hb; simpl.
  - by eexists.
  - destruct Hb as [He Hb].
    replace (ending_line r >? earliest) with false by lia. by apply IH.
Qed.

(** In a list sorted downwards whose ranges are valid and clear of each
    other, each range ends where its predecessor starts, or earlier. *)
Lemma descending_clear_back_to_front rs : ∀ x,
  Sorted (flip sort_key_le) (x :: rs) →
  Forall (no_conflict x) rs →
  StronglySorted no_conflict rs →
  Forall valid_range (x :: rs) →
  back_to_front (starting_line x) rs.
Proof.
  induction rs as [|y t IH]; intros x Hsorted Hx Hclear Hvalid; [done|].
  apply Sorted_inv in Hsorted as [Hsorted Hhd]. apply HdRel_inv in Hhd.
  apply Forall_cons in Hx as [Hxy _].
  apply StronglySorted_cons in Hclear as [Hy Hclear].
  apply Forall_cons in Hvalid as [Hvx Hvalid].
  split.
  - pose proof Hvalid as [Hvy _]%Forall_cons.
    apply no_conflict_spec in Hxy.
    unfold flip, sort_key_le in Hhd. unfold valid_range in *. lia.
  - by apply IH.
Qed.

Lemma apply_loop_residual rs : ∀ earliest smallest fl,
  StronglySorted (λ x y, ending_line y <= ending_line x) rs →
  (∀ r, r ∈ rs → ending_line r <= earliest → ending_line r <= smallest) →
  residual_overlap (Some smallest) rs = true →
  apply_loop (Some earliest) fl rs = Raise overlap_error.
Proof.
  induction rs as [|r rest IH]; intros earliest smallest fl Hs Hle Hres;
    [done|].
  apply StronglySorted_cons in Hs as [Hr Hs]. simpl in *.
  destruct (ending_line r >? earliest) eqn:Hgt; [done|].
  assert (ending_line r <= smallest) as Hsm by (apply Hle; [left|lia]).
  replace (ending_line r >? smallest) with false in Hres by lia.
  simpl in Hres. apply (IH _ (Z.min smallest (starting_line r))); [done| |done].
  intros r' Hr' Hle'. rewrite Forall_forall in Hr. specialize (Hr r' Hr'). lia.
Qed.

Lemma sort_reverse_ends_descending rs :
  StronglySorted (λ x y, ending_line y <= ending_line x)
    (Py.sort_reverse Replacement_lt rs).
Proof.
  apply (StronglySorted_weaken (flip sort_key_le)).
  - intros x y. unfold flip, sort_key_le. lia.
  - apply Sorted_StronglySorted; [apply _|apply sort_reverse_descending].
Qed.

Lemma get_updated_file_lines_clear rs fl :
  Forall valid_range rs →
  StronglySorted no_conflict rs →
  ∃ out, get_updated_file_lines_list rs fl = Ok out.
Proof.
  intros Hvalid Hclear. unfold get_updated_file_lines_list.
  pose proof (sort_reverse_descending rs) as Hsorted.
  pose proof (sort_reverse_perm Replacement_lt rs) as Hperm.
  assert (Forall valid_range (Py.sort_reverse Replacement_lt rs)) as Hvalid'
    by by rewrite Hperm.
  assert (StronglySorted no_conflict (Py.sort_reverse Replacement_lt rs))
    as Hclear'
    by by eapply (StronglySorted_symmetric_perm no_conflict); [symmetry|].
  destruct (Py.sort_reverse Replacement_lt rs) as [|x t]; [by eexists|].
  rewrite apply_loop_first. apply apply_loop_back_to_front.
  apply StronglySorted_cons in Hclear' as [Hx Hclear'].
  by apply descending_clear_back_to_front.
Qed.

Lemma get_updated_file_lines_residual rs fl :
  residual_overlap None (Py.sort_reverse Replacement_lt rs) = true →
  get_updated_file_lines_list rs fl = Raise overlap_error.
Proof.
  unfold get_updated_file_lines_list.
  pose proof (sort_reverse_ends_descending rs) as Hs.
  destruct (Py.sort_reverse Replacement_lt rs) as [|x t]; [done|].
  intros Hres. rewrite apply_loop_first.
  apply StronglySorted_cons in Hs as [_ Hs].
  by apply (apply_loop_residual t _ (starting_line x)).
Qed.

(** Valid ranges stay valid through the resolver. *)
Lemma resolve_conflicts_list_valid rs :
  Forall valid_range rs → Forall valid_range (resolve_conflicts_list rs).
Proof.
  intros Hvalid. apply resolve_loop_Forall.
  - intros r o _ Ho _. unfold valid_range in *.
    destruct (resolve_other_cases r o) as [[_ ->]|(_ & Hs & He & _)]; lia.
  - apply sort_reverse_settled.
  - by rewrite sort_reverse_perm.
Qed.

(** C2, as stated, fails: the ranges [[0,5)] and [[3,3)] have no line in
    common (the second is empty), and applying them raises. *)
Lemma disjoint_ranges_can_fail_to_apply :
  let rs := [mkReplacement 0 5 []; mkReplacement 3 3 ["x"%string]] in
  ¬ ((∀ i j a b,
        i ≠ j → rs !! i = Some a → rs !! j = Some b → ranges_disjoint a b) →
     ∃ out,
       get_updated_file_lines
         (mkFileEdit "a.py" rs false false None)
         ["l0"; "l1"; "l2"; "l3"; "l4"; "l5"]%string
       = Ok out).
Proof.
  intros rs H. destruct H as [out Hout]; [|discriminate Hout].
  intros i j a b Hij Ha Hb. apply ranges_disjointb_spec.
  destruct i as [|[|i]], j as [|[|j]]; simplify_eq/=; done.
Qed.

(** C2, amended: a list of valid ranges no pair of which is an overlap
    conflict for the resolver applies without error, and so does every
    list [resolve_conflicts] returns on valid ranges; a list in which,
    once sorted, some range ends after the smallest [starting_line] in
    front of it raises [MentatError]. *)
Theorem get_updated_file_lines_overlap_check (self : FileEdit)
    (lines : list string) :
  (Forall valid_range (replacements self) →
   (∀ i j a b,
      i ≠ j →
      replacements self !! i = Some a →
      replacements self !! j = Some b →
      overlap_conflict a b = false) →
   ∃ out, get_updated_file_lines self lines = Ok out)
  ∧ (Forall valid_range (replacements self) →
     ∃ out, get_updated_file_lines (resolve_conflicts self) lines = Ok out)
  ∧ (residual_overlap None
       (Py.sort_reverse Replacement_lt (replacements self)) = true →
     get_updated_file_lines self lines = Raise overlap_error).
Proof.
  split; [|split].
  - intros Hvalid Hpairs. apply get_updated_file_lines_clear; [done|].
    by apply pairs_StronglySorted.
  - intros Hvalid. apply get_updated_file_lines_clear.
    + by apply resolve_conflicts_list_valid.
    + apply resolve_conflicts_list_clear.
  - apply get_updated_file_lines_residual.
Qed.

Lemma get_updated_file_lines_overlap_check_witness :
  (∃ out,
     get_updated_file_lines
       (mkFileEdit "a.py" [mkReplacement 0 3 ["x"%string]; mkReplacement 3 8 []]
                   false false None)
       ["l0"; "l1"]%string = Ok out)
  ∧ (∃ out,
       get_updated_file_lines
         (resolve_conflicts
            (mkFileEdit "a.py"
               [mkReplacement 0 5 ["x"%string]; mkReplacement 3 8 []]
               false false None))
         ["l0"; "l1"]%string = Ok out)
  ∧ get_updated_file_lines
      (mkFileEdit "a.py" [mkReplacement 0 5 []; mkReplacement 3 8 []]
                  false false None)
      ["l0"; "l1"]%string = Raise overlap_error.
Proof.
  split; [|split].
  - refine (proj1 (get_updated_file_lines_overlap_check _ _) _ _).
    + repeat constructor; unfold valid_range; simpl; lia.
    + intros i j a b Hij Ha Hb.
      destruct i as [|[|i]], j as [|[|j]]; simplify_eq/=; done.
  - refine (proj1 (proj2 (get_updated_file_lines_overlap_check _ _)) _).
    repeat constructor; unfold valid_range; simpl; lia.
  - refine (proj2 (proj2 (get_updated_file_lines_overlap_check _ _)) _).
    reflexivity.
Defined.

Lemma slice_to_from {A} (l : list A) k : Py.slice_to l k ++ Py.slice_from l k = l.
Proof. apply take_drop. Qed.

Lemma sort_reverse_singleton r : Py.sort_reverse Replacement_lt [r] = [r].
Proof. done. Qed.

(** C6, as stated, fails: inserting one line at line 3 of a one-line
    buffer gives four lines, not two. *)
Lemma insertion_past_the_end_grows_more :
  ¬ (∃ out,
       get_updated_file_lines
         (mkFileEdit "a.py" [mkReplacement 3 3 ["x"%string]] false false None)
         ["l0"%string]
       = Ok out
       ∧ (∀ line, line ∈ ["l0"%string] → line ∈ out)
       ∧ Py.len out = Py.len ["l0"%string] + Py.len ["x"%string]).
Proof.
  intros (out & Hout & _ & Hlen).
  vm_compute in Hout. injection Hout as <-. discriminate Hlen.
Qed.

(** C6, amended: applying a single insertion at [k] succeeds, splits
    the buffer, padded with empty lines up to [k] when it is shorter, in
    two and puts the new lines in between: every line of the input is in
    the output, and the output has [max (len lines) k + len new_lines]
    lines, which is [len lines + len new_lines] unless [k] lies past
    the end. *)
Theorem insertion_keeps_every_line (path : Path) (creation deletion : bool)
    (rename : option Path) (lines new : list string) (k : Z) :
  let self :=
    mkFileEdit path [mkReplacement k k new] creation deletion rename in
  ∃ out before after,
    get_updated_file_lines self lines = Ok out
    ∧ out = before ++ new ++ after
    ∧ before ++ after = lines ++ Py.repeat_list ""%string (k - Py.len lines)
    ∧ (∀ line, line ∈ lines → line ∈ out)
    ∧ Py.len out = Z.max (Py.len lines) k + Py.len new
    ∧ Py.len out = Py.len lines + Py.len new + Z.max 0 (k - Py.len lines).
Proof.
  intros self.
  set (padded := lines ++ Py.repeat_list ""%string (k - Py.len lines)).
  exists (Py.slice_to padded k ++ new ++ Py.slice_from padded k),
    (Py.slice_to padded k), (Py.slice_from padded k).
  assert (Py.len padded = Z.max (Py.len lines) k) as Hlen.
  { unfold padded, Py.len, Py.repeat_list.
    rewrite length_app, length_replicate. lia. }
  assert (Py.len (Py.slice_to padded k ++ new ++ Py.slice_from padded k)
          = Py.len padded + Py.len new) as Hout.
  { rewrite <-(slice_to_from padded k) at 3. unfold Py.len.
    rewrite !length_app. lia. }
  split; [|split; [done|split; [apply slice_to_from|split; [|split]]]].
  - unfold self, get_updated_file_lines, get_updated_file_lines_list.
    simpl replacements. rewrite sort_reverse_singleton. simpl.
    destruct (k >? Py.len lines) eqn:Hk; [done|].
    assert (padded = lines) as ->; [|done].
    unfold padded, Py.repeat_list.
    replace (Z.to_nat (k - Py.len lines)) with 0%nat by lia.
    apply app_nil_r.
  - intros line Hline.
    assert (line ∈ padded) as Hin by (apply elem_of_app; by left).
    rewrite <-(slice_to_from padded k) in Hin.
    rewrite !elem_of_app in *. tauto.
  - lia.
  - lia.
Qed.

(** ** The validity check *)

(** The filter of the session gets to no list of edits unless it is
    given none: the first [bool] it awaits raises. *)
Lemma valid_file_edits_raises os code_file_manager config file_edits :
  file_edits ≠ [] →
  valid_file_edits os code_file_manager config file_edits = Raise TypeError.
Proof.
  destruct file_edits as [|file_edit rest]; [done|]. intros _. simpl.
  by destruct (is_valid os file_edit code_file_manager config).
Qed.

(** C7: [is_valid] answers false for a creation whose path exists, and
    leaves the edit as it is.  The session does not get to drop the
    edit and go on: its filter awaits the [bool] that [is_valid]
    returned, and a list that holds the edit makes it raise [TypeError]
    where the list without the edit was to go on. *)
Theorem existing_creation_is_rejected_but_not_dropped (os : OS)
    (code_file_manager : CodeFileManager) (config : ConfigManager)
    (self : FileEdit) :
  is_creation self = true →
  path_exists os (file_path self) = true →
  is_valid os self code_file_manager config = (false, self)
  ∧ valid_file_edits os code_file_manager config [self] = Raise TypeError
  ∧ valid_file_edits os code_file_manager config [] = Ok []
  ∧ ∀ before after,
      valid_file_edits os code_file_manager config (before ++ self :: after)
      = Raise TypeError.
Proof.
  intros Hcreation Hexists.
  assert (is_valid os self code_file_manager config = (false, self)) as Hno
    by (unfold is_valid; by rewrite Hcreation, Hexists).
  split; [done|]. split; [by simpl; rewrite Hno|]. split; [done|].
  intros before after. apply valid_file_edits_raises.
  by destruct before.
Qed.

Lemma existing_creation_is_rejected_but_not_dropped_witness :
  let os := mkOS (λ p, String.eqb p "/repo/a.py") (λ p _, p) in
  let code_file_manager := mkCodeFileManager ∅ in
  let config := mkConfigManager "/repo" in
  let self := mkFileEdit "/repo/a.py" [] true false None in
  is_valid os self code_file_manager config = (false, self)
  ∧ valid_file_edits os code_file_manager config [self] = Raise TypeError
  ∧ valid_file_edits os code_file_manager config [] = Ok []
  ∧ ∀ before after,
      valid_file_edits os code_file_manager config (before ++ self :: after)
      = Raise TypeError.
Proof.
  intros os code_file_manager config self.
  apply (existing_creation_is_rejected_but_not_dropped os code_file_manager
           config self); reflexivity.
Defined.

(** C8: when the edit passes the existence checks and its rename target
    exists, [is_valid] answers true and leaves the edit with
    [rename_file_path] cleared and every other field as it was. *)
Theorem is_valid_cancels_rename_to_existing (os : OS)
    (code_file_manager : CodeFileManager) (config : ConfigManager)
    (self : FileEdit) (target : Path) :
  passes_existence_checks os self code_file_manager config →
  rename_file_path self = Some target →
  path_exists os target = true →
  ∃ self',
    is_valid os self code_file_manager config = (true, self')
    ∧ rename_file_path self' = None
    ∧ file_path self' = file_path self
    ∧ replacements self' = replacements self
    ∧ is_creation self' = is_creation self
    ∧ is_deletion self' = is_deletion self.
Proof.
  intros Hpass Hrename Hexists.
  exists (set_rename_file_path self None). split; [|done].
  unfold is_valid, passes_existence_checks, cancel_existing_rename in *.
  rewrite Hrename, Hexists.
  destruct (is_creation self).
  - by rewrite Hpass.
  - destruct Hpass as [-> [lines ->]]. done.
Qed.

Lemma is_valid_cancels_rename_to_existing_witness :
  let os := mkOS (λ p, String.eqb p "/repo/a.py" || String.eqb p "/repo/b.py")
                 (λ p _, p) in
  let code_file_manager := mkCodeFileManager {[ "/repo/a.py"%string := [] ]} in
  let self :=
    mkFileEdit "/repo/a.py" [mkReplacement 0 1 ["x"%string]] false false
               (Some "/repo/b.py"%string) in
  ∃ self',
    is_valid os self code_file_manager (mkConfigManager "/repo") = (true, self')
    ∧ rename_file_path self' = None
    ∧ file_path self' = file_path self
    ∧ replacements self' = replacements self
    ∧ is_creation self' = is_creation self
    ∧ is_deletion self' = is_deletion self.
Proof.
  intros os code_file_manager self.
  apply (is_valid_cancels_rename_to_existing os code_file_manager
           (mkConfigManager "/repo") self "/repo/b.py").
  - split; [reflexivity|]. exists []. reflexivity.
  - reflexivity.
  - reflexivity.
Defined.

(** ** The review workflow *)

Lemma ask_user_change_reply display_information text io reply rest :
  answers io = Some reply :: rest →
  ask_user_change display_information text io
  = (reply, mkUserIO (prompts io ++ [(display_information, text)]) rest).
Proof. unfold ask_user_change, ask_yes_no. simpl. by intros ->. Qed.

Lemma review_deletion_declined self lines io rest :
  is_deletion self = true →
  answers io = Some false :: rest →
  review_deletion self lines io
  = (Ok (false, self),
     mkUserIO
       (prompts io
        ++ [(mkDisplayInformation (file_path self) [] [] lines DeleteFile
               None None None, "Delete this file?"%string)])
       rest).
Proof.
  intros Hdel Hans. unfold review_deletion, ask_bind. rewrite Hdel.
  by rewrite (ask_user_change_reply _ _ io false rest).
Qed.

(** C5, as stated, fails: a deletion with a rename and a replacement,
    reviewed by a user who declines the deletion and would accept the
    rest, is not kept, and neither the rename nor the replacement is
    shown. *)
Lemma declined_deletion_is_not_reviewed_further :
  let os := mkOS (λ _, true) (λ p _, p) in
  let code_file_manager :=
    mkCodeFileManager {[ "/repo/a.py"%string := ["l0"%string] ]} in
  let self :=
    mkFileEdit "/repo/a.py" [mkReplacement 0 1 ["x"%string]] false true
               (Some "/repo/b.py"%string) in
  ¬ (∃ self' io',
       filter_replacements os self code_file_manager (mkConfigManager "/repo")
         (mkUserIO [] [Some false; Some true; Some true])
       = (Ok (true, self'), io')
       ∧ RenameFile ∈ (file_action_type ∘ fst <$> prompts io')
       ∧ UpdateFile ∈ (file_action_type ∘ fst <$> prompts io')).
Proof.
  intros os code_file_manager self (self' & io' & H & _).
  vm_compute in H. discriminate H.
Qed.

(** C5, amended: when the user declines the "delete file" prompt of an
    edit with [is_deletion] set, [filter_replacements] returns false at
    once: the edit is left as it was, and the deletion prompt is the
    last one shown (after the creation prompt, for a creation the user
    accepted); neither the rename nor any replacement is asked about. *)
Theorem declined_deletion_abandons_edit (os : OS)
    (code_file_manager : CodeFileManager) (config : ConfigManager)
    (self : FileEdit) (io : UserIO) (lines : list string)
    (accepted : list (option bool)) (rest : list (option bool)) :
  is_deletion self = true →
  (if is_creation self
   then lines = [] ∧ (accepted = [None] ∨ accepted = [Some true])
   else accepted = []
        ∧ file_lines code_file_manager
            !! relpath os (file_path self) (git_root config) = Some lines) →
  answers io = accepted ++ Some false :: rest →
  ∃ shown,
    filter_replacements os self code_file_manager config io
    = (Ok (false, self), mkUserIO (prompts io ++ shown) rest)
    ∧ file_action_type ∘ fst <$> shown
      = (if is_creation self then [CreateFile] else []) ++ [DeleteFile].
Proof.
  intros Hdel Hpath Hans. unfold filter_replacements.
  set (deletion_prompt :=
         (mkDisplayInformation (file_path self) [] [] lines DeleteFile
            None None None, "Delete this file?"%string)).
  destruct (is_creation self).
  - destruct Hpath as [-> Hacc].
    exists [(mkDisplayInformation (file_path self) [] [] [] CreateFile
               None None None, "Create this file?"%string);
            deletion_prompt].
    split; [|done].
    unfold ask_bind, ask_user_change at 1, ask_yes_no. simpl.
    destruct Hacc as [-> | ->]; rewrite Hans; simpl;
      (erewrite review_deletion_declined; [|done..]); simpl;
      by rewrite <-(assoc_L (++)).
  - destruct Hpath as [-> ->]. exists [deletion_prompt]. split; [|done].
    by erewrite review_deletion_declined.
Qed.

Lemma declined_deletion_abandons_edit_witness :
  let os := mkOS (λ _, true) (λ p _, p) in
  let code_file_manager :=
    mkCodeFileManager {[ "/repo/a.py"%string := ["l0"%string] ]} in
  let self :=
    mkFileEdit "/repo/a.py" [mkReplacement 0 1 ["x"%string]] false true
               (Some "/repo/b.py"%string) in
  ∃ shown,
    filter_replacements os self code_file_manager (mkConfigManager "/repo")
      (mkUserIO [] [Some false; Some true; Some true])
    = (Ok (false, self), mkUserIO ([] ++ shown) [Some true; Some true])
    ∧ file_action_type ∘ fst <$> shown = [] ++ [DeleteFile].
Proof.
  intros os code_file_manager self.
  apply (declined_deletion_abandons_edit os code_file_manager
           (mkConfigManager "/repo") self
           (mkUserIO [] [Some false; Some true; Some true])
           ["l0"%string] [] [Some true; Some true]).
  - reflexivity.
  - split; reflexivity.
  - reflexivity.
Defined.

(** ** The streaming printer *)

Lemma add_string_after_shutdown colored self string_ end_ color :
  shutdown self = true → add_string colored self string_ end_ color = Ok self.
Proof. unfold add_string. by intros ->. Qed.

(** [add_string] counts exactly what it queues. *)
Lemma add_string_counts colored self string_ end_ color self' :
  add_string colored self string_ end_ color = Ok self' →
  chars_remaining self' - Py.len (strings_to_print self')
  = chars_remaining self - Py.len (strings_to_print self).
Proof.
  unfold add_string.
  destruct (shutdown self); [by intros [= <-]|].
  destruct (String.length string_ =? 0)%nat; [by intros [= <-]|].
  destruct (String.index _ _ _) as [index|]; [|done].
  intros [= <-]. simpl. unfold Py.len.
  rewrite length_app, !length_alter. lia.
Qed.

Lemma sleep_time_ok self :
  0 <= chars_remaining self → ∃ t, sleep_time self = Ok t.
Proof.
  intros Hn. unfold sleep_time, sleep_divisor.
  replace (chars_remaining self + 1 =? 0) with false by lia. by eexists.
Qed.

Lemma enter_sleep_counts self out :
  chars_remaining self = Py.len (strings_to_print self) →
  counts_queue (enter_sleep self out).
Proof.
  intros Hn. unfold enter_sleep.
  destruct (sleep_time_ok self) as [t ->]; [unfold Py.len in Hn; lia|].
  split; [simpl; lia|done].
Qed.

Lemma resume_print_lines_counts task :
  counts_queue task → counts_queue (resume_print_lines task).
Proof.
  intros [Hn Hok]. unfold resume_print_lines.
  destruct task as [[queue n stop] loc out]. simpl in *.
  destruct loc as [|next_string|t| |e]; simpl in *.
  - destruct stop; [split; [simpl; lia|done]|].
    destruct queue as [|next_string rest].
    + apply enter_sleep_counts. simpl. lia.
    + split; [|done]. simpl. unfold Py.len in *. simpl length in Hn. lia.
  - apply enter_sleep_counts. simpl. lia.
  - split; [simpl; lia|done].
  - split; [simpl; lia|done].
  - by destruct (Hok e).
Qed.

Lemma handle_counts colored task ev :
  counts_queue task → counts_queue (handle colored task ev).
Proof.
  intros [Hn Hok]. destruct ev as [string_ end_ color| |]; simpl.
  - destruct (add_string _ _ _ _ _) as [self'|e] eqn:Hadd; [|by split].
    apply add_string_counts in Hadd. split; [simpl; lia|done].
  - by split.
  - by apply resume_print_lines_counts.
Qed.

Lemma run_counts colored evs : ∀ task,
  counts_queue task → counts_queue (run colored task evs).
Proof.
  induction evs as [|ev evs IH]; intros task Htask; [done|].
  apply IH, handle_counts, Htask.
Qed.

Lemma print_lines_returns_on_shutdown self out :
  shutdown self = true →
  resume_print_lines {| printer := self; location := AtLoopTop; sent := out |}
  = {| printer := self; location := Returned; sent := out |}.
Proof. unfold resume_print_lines. simpl. by intros ->. Qed.

(** C9: a printer with a backlog: ["hi"] is queued, [wrap_it_up] is
    called, and the drain loop is resumed.  The loop returns at once;
    nothing has been sent and the three queued characters are still in
    the queue. *)
Theorem wrap_it_up_leaves_backlog_unsent (colored : string → string → string) :
  let task :=
    run colored (start_print_lines new_printer)
        [CallAddString "hi" newline None; CallWrapItUp; Resume] in
  location task = Returned
  ∧ sent task = []
  ∧ strings_to_print (printer task) = ["h"; "i"; newline]%string
  ∧ resume_print_lines task = task.
Proof. repeat split. Qed.

Lemma enter_sleep_location self out t :
  location (enter_sleep self out) = AwaitSleep t →
  sleep_time self = Ok t ∧ printer (enter_sleep self out) = self.
Proof.
  unfold enter_sleep. destruct (sleep_time self) as [t'|e]; simpl; [|done].
  by intros [= ->].
Qed.

Lemma resume_print_lines_sleep task t :
  location (resume_print_lines task) = AwaitSleep t →
  sleep_time (printer (resume_print_lines task)) = Ok t.
Proof.
  unfold resume_print_lines.
  destruct (location task) as [|next_string|t'| |e] eqn:Hloc; simpl.
  - destruct (shutdown (printer task)); [done|].
    destruct (strings_to_print (printer task)); [|done].
    intros [Ht ->]%enter_sleep_location. done.
  - intros [Ht ->]%enter_sleep_location. done.
  - done.
  - by rewrite Hloc.
  - by rewrite Hloc.
Qed.

(** C10: however calls of [add_string] and [wrap_it_up] interleave with
    the drain loop of a new printer, [chars_remaining] is the length of
    the queue, one more while a dequeued string is being sent and its
    decrement is still to come; the divisor of [sleep_time] is never
    zero and the loop never dies of an exception; and each time the loop
    goes to sleep, the duration was computed by [sleep_time] on a
    printer whose [chars_remaining] is the queue length, with the queue
    length plus one as divisor. *)
Theorem chars_remaining_counts_queue (colored : string → string → string)
    (evs : list Event) :
  let task := run colored (start_print_lines new_printer) evs in
  let self := printer task in
  chars_remaining new_printer = Py.len (strings_to_print new_printer)
  ∧ chars_remaining self
    = Py.len (strings_to_print self) + in_flight (location task)
  ∧ sleep_divisor self ≠ 0
  ∧ (∀ e, location task ≠ Failed e)
  ∧ (∀ t, location (resume_print_lines task) = AwaitSleep t →
          let self' := printer (resume_print_lines task) in
          sleep_time self' = Ok t
          ∧ chars_remaining self' = Py.len (strings_to_print self')
          ∧ sleep_divisor self' = Py.len (strings_to_print self') + 1).
Proof.
  intros task self.
  assert (counts_queue task) as [Hn Hok].
  { apply run_counts. by split. }
  assert (0 <= in_flight (location task)) as Hfl
    by (destruct (location task); simpl; lia).
  split; [done|]. split; [done|]. split; [|split; [done|]].
  - unfold sleep_divisor. fold self in Hn. unfold Py.len in *. lia.
  - intros t Ht self'.
    assert (counts_queue (resume_print_lines task)) as [Hn' _].
    { apply resume_print_lines_counts. by split. }
    rewrite Ht in Hn'. simpl in Hn'. fold self' in Hn'.
    split; [by apply resume_print_lines_sleep|].
    unfold sleep_divisor. lia.
Qed.

(** * Further properties *)

(** ** The descending sort of replacements *)

(** X1: the descending sort used by the resolver and by the applier
    returns a permutation of the list in which ending lines never go
    up, and in which, among equal ending lines, no range with
    [starting_line < ending_line] stands in front of one without. *)
Theorem sort_reverse_orders_by_ending_line (l : list Replacement) :
  Py.sort_reverse Replacement_lt l ≡ₚ l
  ∧ StronglySorted
      (λ x y,
         ending_line y < ending_line x
         ∨ (ending_line y = ending_line x
            ∧ (starting_line x < ending_line x →
               starting_line y < ending_line y)))
      (Py.sort_reverse Replacement_lt l).
Proof.
  split; [apply sort_reverse_perm|].
  apply (StronglySorted_weaken (flip sort_key_le)).
  - intros x y. unfold flip, sort_key_le. lia.
  - apply Sorted_StronglySorted; [apply _|apply sort_reverse_descending].
Qed.

(** ** What the resolver leaves alone *)

Lemma shrunk_refl o : shrunk o o.
Proof. unfold shrunk. split; [done|]. split; [lia|]. split; [lia|done]. Qed.

Lemma shrunk_trans a b c : shrunk a b → shrunk b c → shrunk a c.
Proof.
  intros (Hn & Hs & He & Hin) (Hn' & Hs' & He' & Hin').
  split; [congruence|]. split; [lia|]. split; [lia|].
  intros x Hx. by apply Hin, Hin'.
Qed.

Lemma resolve_other_shrunk r o : shrunk o (resolve_other r o).
Proof.
  destruct (resolve_other_cases r o) as [[_ ->]|(Hc & Hs & He & Hn)];
    [apply shrunk_refl|].
  apply overlap_conflict_spec in Hc.
  unfold shrunk, in_range. rewrite Hs, He, Hn.
  split; [done|]. split; [lia|]. split; [lia|]. intros x. lia.
Qed.

Lemma Forall2_shrunk_trans l1 l2 l3 :
  Forall2 shrunk l1 l2 → Forall2 shrunk l2 l3 → Forall2 shrunk l1 l3.
Proof.
  intros H12. revert l3. induction H12 as [|a b l1 l2 Hab _ IH]; intros l3 H23.
  - by inv H23.
  - inv H23. constructor; [by eapply shrunk_trans|auto].
Qed.

Lemma resolve_loop_shrunk l : Forall2 shrunk l (resolve_loop l).
Proof.
  induction l as [|r rest IH] using resolve_loop_ind; [constructor|].
  rewrite resolve_loop_cons. constructor; [apply shrunk_refl|].
  eapply Forall2_shrunk_trans; [|exact IH].
  apply Forall2_fmap_r, Forall_Forall2_diag, Forall_forall.
  intros o _. apply resolve_other_shrunk.
Qed.

(** X2: [resolve_conflicts] drops and adds no replacement and only ever
    shrinks one: position by position, the resolved list has, against
    the sorted one, the same new lines, bounds that have not gone up and
    a range within the old one.  The replacement the sort puts first is
    left as it is, and so are the other fields of the edit. *)
Theorem resolve_conflicts_only_shrinks (self : FileEdit) :
  let sorted := Py.sort_reverse Replacement_lt (replacements self) in
  let resolved := resolve_conflicts self in
  Forall2 shrunk sorted (replacements resolved)
  ∧ length (replacements resolved) = length (replacements self)
  ∧ new_lines <$> replacements resolved ≡ₚ new_lines <$> replacements self
  ∧ head (replacements resolved) = head sorted
  ∧ file_path resolved = file_path self
  ∧ is_creation resolved = is_creation self
  ∧ is_deletion resolved = is_deletion self
  ∧ rename_file_path resolved = rename_file_path self.
Proof.
  intros sorted resolved.
  assert (Forall2 shrunk sorted (replacements resolved)) as Hsh
    by apply resolve_loop_shrunk.
  assert (sorted ≡ₚ replacements self) as Hperm by apply sort_reverse_perm.
  split; [done|]. split; [|split; [|split; [|done]]].
  - rewrite <-(Forall2_length _ _ _ Hsh). by rewrite Hperm.
  - rewrite <-Hperm.
    assert (new_lines <$> replacements resolved = new_lines <$> sorted)
      as ->; [|done].
    clear Hperm. induction Hsh as [|a b l1 l2 Hab _ IH]; [done|].
    csimpl. f_equal; [apply Hab|done].
  - change (replacements resolved) with (resolve_loop sorted).
    destruct sorted as [|r rest]; [done|]. by rewrite resolve_loop_cons.
Qed.

(** X3: on a list no pair of which is an overlap conflict, the resolver
    changes no field of any replacement: it only sorts. *)
Theorem resolve_conflicts_without_conflict (self : FileEdit) :
  (∀ i j a b,
     i ≠ j →
     replacements self !! i = Some a →
     replacements self !! j = Some b →
     overlap_conflict a b = false) →
  resolve_conflicts self
  = set_replacements self (Py.sort_reverse Replacement_lt (replacements self)).
Proof.
  intros Hpairs. unfold resolve_conflicts, set_replacements. f_equal.
  apply resolve_loop_fixed.
  eapply (StronglySorted_symmetric_perm no_conflict).
  - symmetry. apply sort_reverse_perm.
  - by apply pairs_StronglySorted.
Qed.

Lemma resolve_conflicts_without_conflict_witness :
  resolve_conflicts
    (mkFileEdit "a.py"
       [mkReplacement 0 2 ["x"%string]; mkReplacement 4 4 [];
        mkReplacement 2 4 ["y"%string]]
       false false None)
  = mkFileEdit "a.py"
      [mkReplacement 4 4 []; mkReplacement 2 4 ["y"%string];
       mkReplacement 0 2 ["x"%string]]
      false false None.
Proof.
  apply (resolve_conflicts_without_conflict
           (mkFileEdit "a.py"
              [mkReplacement 0 2 ["x"%string]; mkReplacement 4 4 [];
               mkReplacement 2 4 ["y"%string]]
              false false None)).
  intros i j a b Hij Ha Hb.
  destruct i as [|[|[|i]]], j as [|[|[|j]]]; simplify_eq/=; done.
Defined.

Lemma sort_reverse_pair a b :
  Replacement_lt a b = true → Replacement_lt b a = false →
  Py.sort_reverse Replacement_lt [a; b] = [b; a]
  ∧ Py.sort_reverse Replacement_lt [b; a] = [b; a].
Proof.
  intros Hab Hba. unfold Py.sort_reverse, Py.sort.
  change (reverse [a; b]) with [b; a]. change (reverse [b; a]) with [a; b].
  simpl. by rewrite Hab, Hba.
Qed.

(** X4: of two replacements that overlap, the one with the higher
    ending line is kept as it is and goes first; the other one is cut
    to end where the first starts, its start moved down to there if it
    lay beyond.  The order in which the two were listed does not
    matter. *)
Theorem resolve_conflicts_pair (a b : Replacement) :
  ending_line a < ending_line b →
  overlap_conflict b a = true →
  let clipped :=
    mkReplacement (Z.min (starting_line a) (starting_line b))
                  (starting_line b) (new_lines a) in
  resolve_conflicts_list [a; b] = [b; clipped]
  ∧ resolve_conflicts_list [b; a] = [b; clipped].
Proof.
  intros Hends Hover clipped.
  destruct (sort_reverse_pair a b) as [Hab Hba].
  { apply Replacement_lt_spec. lia. }
  { apply not_true_iff_false. rewrite Replacement_lt_spec. lia. }
  unfold resolve_conflicts_list. rewrite Hab, Hba.
  rewrite resolve_loop_cons. simpl fmap. rewrite resolve_loop_cons. simpl.
  assert (resolve_other b a = clipped) as ->; [|done].
  unfold resolve_other. by rewrite Hover.
Qed.

Lemma resolve_conflicts_pair_witness :
  resolve_conflicts_list
    [mkReplacement 4 7 ["x"%string]; mkReplacement 2 9 ["y"%string]]
  = [mkReplacement 2 9 ["y"%string]; mkReplacement 2 2 ["x"%string]]
  ∧ resolve_conflicts_list
      [mkReplacement 2 9 ["y"%string]; mkReplacement 4 7 ["x"%string]]
    = [mkReplacement 2 9 ["y"%string]; mkReplacement 2 2 ["x"%string]].
Proof.
  apply (resolve_conflicts_pair (mkReplacement 4 7 ["x"%string])
           (mkReplacement 2 9 ["y"%string])); [simpl; lia|reflexivity].
Defined.

(** X5: the resolver keeps the invariant of the data model: when every
    range of the list has [starting_line <= ending_line], so has every
    range of the resolved list. *)
Theorem resolve_conflicts_keeps_ranges_valid (self : FileEdit) :
  Forall valid_range (replacements self) →
  Forall valid_range (replacements (resolve_conflicts self)).
Proof.
  intros Hvalid. by apply resolve_conflicts_list_valid.
Qed.

Lemma resolve_conflicts_keeps_ranges_valid_witness :
  Forall valid_range
    (replacements
       (resolve_conflicts
          (mkFileEdit "a.py"
             [mkReplacement 4 7 ["x"%string]; mkReplacement 2 9 ["y"%string]]
             false false None))).
Proof.
  apply (resolve_conflicts_keeps_ranges_valid
           (mkFileEdit "a.py"
              [mkReplacement 4 7 ["x"%string]; mkReplacement 2 9 ["y"%string]]
              false false None)).
  repeat constructor; unfold valid_range; simpl; lia.
Defined.

(** ** Applying replacements that lie within the buffer *)

Lemma slice_index_in_bounds n k :
  0 <= k <= Z.of_nat n → Py.slice_index n k = Z.to_nat k.
Proof.
  intros Hk. unfold Py.slice_index.
  replace (k <? 0) with false by lia. lia.
Qed.

Lemma apply_loop_in_bounds earliest lines r rest :
  match earliest with
  | Some line => ending_line r <= line
  | None => True
  end →
  0 <= starting_line r <= ending_line r →
  ending_line r <= Py.len lines →
  apply_loop earliest lines (r :: rest)
  = apply_loop (Some (starting_line r)) (spliced lines r) rest.
Proof.
  intros Hearliest Hs He. simpl.
  assert (match earliest with
          | Some line => ending_line r >? line
          | None => false
          end = false) as ->.
  { destruct earliest; [lia|done]. }
  replace (ending_line r >? Py.len lines) with false by lia.
  unfold Py.slice_to, Py.slice_from, Py.len, spliced in *.
  by rewrite !slice_index_in_bounds by lia.
Qed.

Lemma spliced_length lines r :
  0 <= starting_line r <= ending_line r →
  ending_line r <= Py.len lines →
  Py.len (spliced lines r)
  = Py.len lines - (ending_line r - starting_line r) + Py.len (new_lines r).
Proof.
  intros Hs He. unfold spliced, Py.len in *.
  rewrite !length_app, length_take, length_drop. lia.
Qed.

(** X6: a single replacement whose range lies within the buffer
    replaces exactly that range: the lines in front of [starting_line]
    and the lines from [ending_line] on are kept as they are, with the
    new lines in between, and the length changes by the number of new
    lines less the number of lines replaced. *)
Theorem single_replacement_splices (self : FileEdit) (r : Replacement)
    (lines : list string) :
  replacements self = [r] →
  0 <= starting_line r <= ending_line r →
  ending_line r <= Py.len lines →
  ∃ out,
    get_updated_file_lines self lines = Ok out
    ∧ out = take (Z.to_nat (starting_line r)) lines
            ++ new_lines r
            ++ drop (Z.to_nat (ending_line r)) lines
    ∧ Py.len out
      = Py.len lines - (ending_line r - starting_line r)
        + Py.len (new_lines r).
Proof.
  intros Hr Hs He. exists (spliced lines r).
  split; [|split; [done|by apply spliced_length]].
  unfold get_updated_file_lines, get_updated_file_lines_list.
  rewrite Hr, sort_reverse_singleton.
  by rewrite apply_loop_in_bounds.
Qed.

Lemma single_replacement_splices_witness :
  let r := mkReplacement 2 4 ["new"%string] in
  let lines := ["l0"; "l1"; "l2"; "l3"; "l4"; "l5"]%string in
  ∃ out,
    get_updated_file_lines (mkFileEdit "a.py" [r] false false None) lines
    = Ok out
    ∧ out = ["l0"; "l1"; "new"; "l4"; "l5"]%string
    ∧ Py.len out = 6 - (4 - 2) + 1.
Proof.
  intros r lines.
  apply (single_replacement_splices
           (mkFileEdit "a.py" [r] false false None) r lines);
    [reflexivity|simpl; lia|vm_compute; discriminate].
Defined.

(** X7: two replacements within the buffer, the first ending where the
    second starts or earlier and strictly before the second ends, are
    applied without either shifting the other: the result is the lines
    in front of the first, the new lines of the first, the lines between
    the two, the new lines of the second and the lines after the second,
    in whichever order the two were listed. *)
Theorem two_replacements_apply_independently (a b : Replacement)
    (lines : list string) :
  0 <= starting_line a <= ending_line a →
  ending_line a <= starting_line b <= ending_line b →
  ending_line a < ending_line b →
  ending_line b <= Py.len lines →
  let out :=
    take (Z.to_nat (starting_line a)) lines
    ++ new_lines a
    ++ drop (Z.to_nat (ending_line a)) (take (Z.to_nat (starting_line b)) lines)
    ++ new_lines b
    ++ drop (Z.to_nat (ending_line b)) lines in
  get_updated_file_lines_list [a; b] lines = Ok out
  ∧ get_updated_file_lines_list [b; a] lines = Ok out.
Proof.
  intros Ha Hb Hends Hlen out.
  destruct (sort_reverse_pair a b) as [Hab Hba].
  { apply Replacement_lt_spec. lia. }
  { apply not_true_iff_false. rewrite Replacement_lt_spec. lia. }
  unfold get_updated_file_lines_list. rewrite Hab, Hba.
  assert (apply_loop None lines [b; a] = Ok out) as ->; [|done].
  rewrite apply_loop_in_bounds by (done || lia).
  assert (length (take (Z.to_nat (starting_line b)) lines)
          = Z.to_nat (starting_line b)) as Htake.
  { rewrite length_take. unfold Py.len in Hlen. lia. }
  rewrite apply_loop_in_bounds; [|lia|lia|].
  - simpl. f_equal. unfold out, spliced at 1. unfold spliced.
    rewrite take_app_le by lia. rewrite take_take.
    replace (Z.to_nat (starting_line a) `min` Z.to_nat (starting_line b))%nat
      with (Z.to_nat (starting_line a)) by lia.
    rewrite drop_app_le by lia. done.
  - unfold spliced, Py.len in *. rewrite !length_app, Htake. lia.
Qed.

Lemma two_replacements_apply_independently_witness :
  let a := mkReplacement 0 1 ["A"%string] in
  let b := mkReplacement 3 4 ["B"; "B'"]%string in
  let lines := ["l0"; "l1"; "l2"; "l3"; "l4"]%string in
  get_updated_file_lines_list [a; b] lines
  = Ok ["A"; "l1"; "l2"; "B"; "B'"; "l4"]%string
  ∧ get_updated_file_lines_list [b; a] lines
    = Ok ["A"; "l1"; "l2"; "B"; "B'"; "l4"]%string.
Proof.
  intros a b lines.
  apply (two_replacements_apply_independently a b lines);
    try (simpl; lia). vm_compute; discriminate.
Defined.

(** X8: two insertions at the same line of the buffer are both applied,
    and the new lines of the one listed second come out in front of the
    new lines of the one listed first. *)
Theorem insertions_at_one_line_come_out_reversed (k : Z)
    (first second lines : list string) :
  0 <= k <= Py.len lines →
  get_updated_file_lines_list
    [mkReplacement k k first; mkReplacement k k second] lines
  = Ok (take (Z.to_nat k) lines ++ second ++ first ++ drop (Z.to_nat k) lines).
Proof.
  intros Hk. unfold get_updated_file_lines_list.
  assert (Py.sort_reverse Replacement_lt
            [mkReplacement k k first; mkReplacement k k second]
          = [mkReplacement k k first; mkReplacement k k second]) as ->.
  { unfold Py.sort_reverse, Py.sort.
    change (reverse [?x; ?y]) with [y; x]. simpl.
    unfold Replacement_lt. simpl.
    replace (k <? k) with false by lia. by rewrite andb_false_r. }
  rewrite apply_loop_in_bounds by (done || simpl; lia).
  assert (length (take (Z.to_nat k) lines) = Z.to_nat k) as Htake.
  { rewrite length_take. unfold Py.len in Hk. lia. }
  rewrite apply_loop_in_bounds; simpl; [|lia|lia|].
  - f_equal. unfold spliced. simpl.
    rewrite take_app_le by lia. rewrite take_take.
    replace (Z.to_nat k `min` Z.to_nat k)%nat with (Z.to_nat k) by lia.
    by rewrite drop_app_length' by done.
  - unfold spliced, Py.len in *. simpl. rewrite !length_app, Htake. lia.
Qed.

Lemma insertions_at_one_line_come_out_reversed_witness :
  get_updated_file_lines_list
    [mkReplacement 1 1 ["first"%string]; mkReplacement 1 1 ["second"%string]]
    ["l0"; "l1"]%string
  = Ok ["l0"; "second"; "first"; "l1"]%string.
Proof.
  apply (insertions_at_one_line_come_out_reversed 1 ["first"%string]
           ["second"%string] ["l0"; "l1"]%string).
  vm_compute. split; discriminate.
Defined.

Lemma NoDup_fmap_eq {A B} (f : A → B) l x y :
  NoDup (f <$> l) → x ∈ l → y ∈ l → f x = f y → x = y.
Proof.
  induction l as [|z l IH]; csimpl; intros Hnd Hx Hy Hf; [by inv Hx|].
  apply NoDup_cons in Hnd as [Hz Hnd].
  apply elem_of_cons in Hx as [->|Hx]; apply elem_of_cons in Hy as [->|Hy].
  - done.
  - destruct Hz. rewrite Hf. by apply list_elem_of_fmap_2.
  - destruct Hz. rewrite <-Hf. by apply list_elem_of_fmap_2.
  - by apply IH.
Qed.

Lemma sort_reverse_distinct_ends l l' :
  l ≡ₚ l' → NoDup (ending_line <$> l) →
  Py.sort_reverse Replacement_lt l = Py.sort_reverse Replacement_lt l'.
Proof.
  intros Hperm Hnd.
  apply (Sorted_unique_strong (flip sort_key_le));
    [|apply sort_reverse_descending..|].
  - intros x y Hx Hy Hxy Hyx.
    rewrite sort_reverse_perm in Hx. rewrite sort_reverse_perm, <-Hperm in Hy.
    apply (NoDup_fmap_eq ending_line l); [done..|].
    unfold flip, sort_key_le in *. lia.
  - by rewrite !sort_reverse_perm.
Qed.

(** X9: when no two replacements end on the same line, neither the
    resolver nor the applier depends on the order in which the list
    holds them. *)
Theorem listing_order_is_irrelevant (l l' : list Replacement)
    (lines : list string) :
  l ≡ₚ l' →
  NoDup (ending_line <$> l) →
  resolve_conflicts_list l = resolve_conflicts_list l'
  ∧ get_updated_file_lines_list l lines = get_updated_file_lines_list l' lines.
Proof.
  intros Hperm Hnd.
  unfold resolve_conflicts_list, get_updated_file_lines_list.
  by rewrite (sort_reverse_distinct_ends l l').
Qed.

Lemma listing_order_is_irrelevant_witness :
  let a := mkReplacement 0 1 ["A"%string] in
  let b := mkReplacement 3 4 ["B"%string] in
  let c := mkReplacement 1 3 [] in
  resolve_conflicts_list [a; b; c] = resolve_conflicts_list [c; a; b]
  ∧ get_updated_file_lines_list [a; b; c] ["l0"; "l1"]%string
    = get_updated_file_lines_list [c; a; b] ["l0"; "l1"]%string.
Proof.
  intros a b c.
  apply (listing_order_is_irrelevant [a; b; c] [c; a; b]).
  - change [c; a; b] with ([c] ++ [a; b]).
    change [a; b; c] with ([a; b] ++ [c]). apply Permutation_app_comm.
  - apply (bool_decide_unpack _). vm_compute. exact I.
Defined.

(** ** The validity check, further *)

Lemma cancel_existing_rename_fields os self :
  file_path (cancel_existing_rename os self) = file_path self
  ∧ replacements (cancel_existing_rename os self) = replacements self
  ∧ is_creation (cancel_existing_rename os self) = is_creation self
  ∧ is_deletion (cancel_existing_rename os self) = is_deletion self.
Proof.
  unfold cancel_existing_rename.
  destruct (rename_file_path self) as [target|]; [|done].
  by destruct (path_exists os target).
Qed.

Lemma cancel_existing_rename_target os self target :
  rename_file_path (cancel_existing_rename os self) = Some target →
  rename_file_path self = Some target ∧ path_exists os target = false.
Proof.
  unfold cancel_existing_rename.
  destruct (rename_file_path self) as [target'|] eqn:Hr; [|by rewrite Hr].
  destruct (path_exists os target') eqn:He; [done|].
  rewrite Hr. by intros [= <-].
Qed.

Lemma cancel_existing_rename_twice os self :
  cancel_existing_rename os (cancel_existing_rename os self)
  = cancel_existing_rename os self.
Proof.
  unfold cancel_existing_rename at 1.
  destruct (rename_file_path (cancel_existing_rename os self))
    as [target|] eqn:Hr; [|done].
  apply cancel_existing_rename_target in Hr as [_ ->]. done.
Qed.

Lemma is_valid_cases os self code_file_manager config :
  (passes_existence_checks os self code_file_manager config
   ∧ is_valid os self code_file_manager config
     = (true, cancel_existing_rename os self))
  ∨ (¬ passes_existence_checks os self code_file_manager config
     ∧ is_valid os self code_file_manager config = (false, self)).
Proof.
  unfold passes_existence_checks, is_valid.
  destruct (is_creation self).
  - destruct (path_exists os (file_path self)); [right|left]; by split.
  - destruct (path_exists os (file_path self)); simpl.
    + destruct (file_lines code_file_manager !! _) as [lines|] eqn:Hl.
      * left. by split; [split; [|eexists]|].
      * right. split; [|done]. by intros [_ [lines Hlines]].
    + right. split; [|done]. by intros [? _].
Qed.

(** X10: [is_valid] accepts an edit exactly when a creation's path does
    not exist, or another edit's path exists and is a tracked file.
    A rejected edit is left as it is.  An accepted one keeps its path,
    its replacements and its flags, and whatever rename target it still
    has is the one it had and does not exist.  Checking the edit again
    gives the same answer and changes nothing more. *)
Theorem is_valid_accepts_exactly (os : OS)
    (code_file_manager : CodeFileManager) (config : ConfigManager)
    (self : FileEdit) :
  let answer := is_valid os self code_file_manager config in
  (answer.1 = true ↔ passes_existence_checks os self code_file_manager config)
  ∧ (answer.1 = false → answer.2 = self)
  ∧ file_path answer.2 = file_path self
  ∧ replacements answer.2 = replacements self
  ∧ is_creation answer.2 = is_creation self
  ∧ is_deletion answer.2 = is_deletion self
  ∧ (∀ target,
       answer.1 = true →
       rename_file_path answer.2 = Some target →
       rename_file_path self = Some target ∧ path_exists os target = false)
  ∧ is_valid os answer.2 code_file_manager config = answer.
Proof.
  intros answer. unfold answer.
  pose proof (cancel_existing_rename_fields os self) as (Hp & Hr & Hc & Hd).
  destruct (is_valid_cases os self code_file_manager config)
    as [[Hpass Heq]|[Hfail Heq]]; rewrite Heq; simpl.
  - split; [done|]. split; [done|]. repeat (split; [done|]).
    split; [intros target _; apply cancel_existing_rename_target|].
    destruct (is_valid_cases os (cancel_existing_rename os self)
                code_file_manager config) as [[_ ->]|[Hfail _]].
    + by rewrite cancel_existing_rename_twice.
    + destruct Hfail. unfold passes_existence_checks in *.
      by rewrite Hp, Hc.
  - split; [split; [done|by intros ?]|]. by repeat (split; [done|]).
Qed.

(** ** The review workflow, further *)

Lemma ask_user_change_io display_information text io :
  ∃ reply used,
    ask_user_change display_information text io
    = (reply,
       mkUserIO (prompts io ++ [(display_information, text)])
                (drop used (answers io)))
    ∧ (answers io = [] → reply = true).
Proof.
  unfold ask_user_change, ask_yes_no. simpl.
  destruct (answers io) as [|[reply|] rest] eqn:Ha; simpl.
  - by exists true, 0%nat.
  - by exists reply, 1%nat.
  - by exists true, 1%nat.
Qed.

(** What the loop over the replacements does to the terminal and what
    it keeps. *)
Lemma keep_changes_io self lines rs : ∀ io,
  ∃ kept shown used,
    keep_changes self lines rs io
    = (kept, mkUserIO (prompts io ++ shown) (drop used (answers io)))
    ∧ kept `sublist_of` rs
    ∧ length shown = length rs
    ∧ (answers io = [] → kept = rs).
Proof.
  induction rs as [|r rest IH]; intros io; simpl.
  - exists [], [], 0%nat. rewrite app_nil_r. by destruct io.
  - unfold ask_bind.
    destruct (ask_user_change_io
                (mkDisplayInformation (file_path self) lines (new_lines r)
                   (Py.slice lines (starting_line r) (ending_line r))
                   UpdateFile (Some (starting_line r)) (Some (ending_line r))
                   (rename_file_path self))
                "Keep this change?" io) as (reply & used & -> & Hdefault).
    destruct (IH (mkUserIO
                    (prompts io
                     ++ [(mkDisplayInformation (file_path self) lines
                            (new_lines r)
                            (Py.slice lines (starting_line r) (ending_line r))
                            UpdateFile (Some (starting_line r))
                            (Some (ending_line r)) (rename_file_path self),
                          "Keep this change?"%string)])
                    (drop used (answers io))))
      as (kept & shown & used' & -> & Hsub & Hlen & Hall).
    simpl in *. unfold ask_ret.
    eexists _, (_ :: shown), (used + used')%nat.
    rewrite drop_drop, <-(assoc_L (++)). split; [done|].
    split; [|split; [simpl; by rewrite Hlen|]].
    + destruct reply; [by apply sublist_skip|by apply sublist_cons].
    + intros Hnone. rewrite Hdefault by done. f_equal. apply Hall.
      by rewrite Hnone, drop_nil.
Qed.

Lemma reviewed_refl self : reviewed self self.
Proof. unfold reviewed. repeat split; auto. Qed.

Lemma set_replacements_same self : set_replacements self (replacements self) = self.
Proof. by destruct self. Qed.

(** From the rename prompt on the review always comes to its end. *)
Lemma review_rename_and_changes_io self lines io :
  ∃ self' shown used,
    review_rename_and_changes self lines io
    = (Ok (has_changes self', self'),
       mkUserIO (prompts io ++ shown) (drop used (answers io)))
    ∧ reviewed self self'
    ∧ (answers io = [] →
       self' = self
       ∧ length shown
         = ((if rename_file_path self is Some _ then 1 else 0)
            + length (replacements self))%nat).
Proof.
  unfold review_rename_and_changes, ask_bind at 1.
  destruct (rename_file_path self) as [target|] eqn:Hrename.
  - unfold ask_bind at 1.
    destruct (ask_user_change_io
                (mkDisplayInformation (file_path self) [] [] [] RenameFile
                   None None (Some target))
                "Rename this file?" io) as (reply & used & -> & Hdefault).
    unfold ask_ret, ask_bind.
    set (self1 := if reply then self else set_rename_file_path self None).
    assert (replacements self1 = replacements self) as Hrs
      by (unfold self1; by destruct reply).
    destruct (keep_changes_io self1 lines (replacements self)
                (mkUserIO
                   (prompts io
                    ++ [(mkDisplayInformation (file_path self) [] [] []
                           RenameFile None None (Some target),
                         "Rename this file?"%string)])
                   (drop used (answers io))))
      as (kept & shown & used' & Hkeep & Hsub & Hlen & Hall).
    rewrite Hrs, Hkeep. simpl.
    eexists (set_replacements self1 kept), (_ :: shown), (used + used')%nat.
    rewrite drop_drop, <-(assoc_L (++)). split; [done|]. split.
    + unfold reviewed, self1. destruct reply; simpl; rewrite ?Hrename; auto 10.
    + intros Hnone. split; [|simpl; by rewrite Hlen].
      rewrite Hall by (simpl; by rewrite Hnone, drop_nil).
      unfold self1. rewrite Hdefault by done. apply set_replacements_same.
  - unfold ask_ret at 1. unfold ask_bind, ask_ret.
    destruct (keep_changes_io self lines (replacements self) io)
      as (kept & shown & used & -> & Hsub & Hlen & Hall).
    exists (set_replacements self kept), shown, used. split; [done|]. split.
    + unfold reviewed. simpl. auto 10.
    + intros Hnone. split; [|done].
      rewrite Hall by done. apply set_replacements_same.
Qed.

(** From the deletion prompt on the review either stops at a declined
    deletion or comes to its end. *)
Lemma review_deletion_io self lines io :
  ∃ kept self' shown used,
    review_deletion self lines io
    = (Ok (kept, self'),
       mkUserIO (prompts io ++ shown) (drop used (answers io)))
    ∧ reviewed self self'
    ∧ (kept = true → has_changes self' = true)
    ∧ (answers io = [] →
       kept = has_changes self
       ∧ self' = self
       ∧ length shown
         = ((if is_deletion self then 1 else 0)
            + (if rename_file_path self is Some _ then 1 else 0)
            + length (replacements self))%nat).
Proof.
  unfold review_deletion.
  destruct (is_deletion self) eqn:Hdel.
  - unfold ask_bind.
    destruct (ask_user_change_io
                (mkDisplayInformation (file_path self) [] [] lines DeleteFile
                   None None None)
                "Delete this file?" io) as (reply & used & -> & Hdefault).
    destruct reply.
    + destruct (review_rename_and_changes_io self lines
                  (mkUserIO
                     (prompts io
                      ++ [(mkDisplayInformation (file_path self) [] [] lines
                             DeleteFile None None None,
                           "Delete this file?"%string)])
                     (drop used (answers io))))
        as (self' & shown & used' & -> & Hrev & Hall).
      simpl. eexists _, self', (_ :: shown), (used + used')%nat.
      rewrite drop_drop, <-(assoc_L (++)). split; [done|].
      split; [done|]. split; [done|].
      intros Hnone. destruct Hall as [-> Hlen].
      { simpl. by rewrite Hnone, drop_nil. }
      simpl. by rewrite Hlen.
    + unfold ask_ret. eexists false, self, [_], used.
      split; [done|]. split; [apply reviewed_refl|]. split; [done|].
      intros Hnone. by specialize (Hdefault Hnone).
  - destruct (review_rename_and_changes_io self lines io)
      as (self' & shown & used & -> & Hrev & Hall).
    eexists _, self', shown, used. split; [done|].
    split; [done|]. split; [done|].
    intros Hnone. destruct (Hall Hnone) as [-> Hlen]. done.
Qed.

(** X11: the review of an edit [is_valid] has accepted never fails on
    the lookup of the tracked lines: whatever the user answers,
    [filter_replacements] returns its verdict. *)
Theorem filter_replacements_after_is_valid (os : OS)
    (code_file_manager : CodeFileManager) (config : ConfigManager)
    (self self' : FileEdit) (io : UserIO) :
  is_valid os self code_file_manager config = (true, self') →
  ∃ kept self'' io',
    filter_replacements os self' code_file_manager config io
    = (Ok (kept, self''), io').
Proof.
  intros Hvalid.
  pose proof (cancel_existing_rename_fields os self) as (Hp & _ & Hc & _).
  destruct (is_valid_cases os self code_file_manager config)
    as [[Hpass Heq]|[_ Heq]]; rewrite Heq in Hvalid; [|done].
  injection Hvalid as <-.
  unfold filter_replacements, passes_existence_checks in *. rewrite Hc, Hp.
  destruct (is_creation self).
  - unfold ask_bind.
    destruct (ask_user_change_io
                (mkDisplayInformation (file_path self) [] [] [] CreateFile
                   None None None)
                "Create this file?" io) as (reply & used & -> & _).
    destruct reply; [|by eexists _, _, _].
    destruct (review_deletion_io (cancel_existing_rename os self) []
                (mkUserIO
                   (prompts io
                    ++ [(mkDisplayInformation (file_path self) [] [] []
                           CreateFile None None None,
                         "Create this file?"%string)])
                   (drop used (answers io))))
      as (kept & self'' & shown & used' & -> & _). by eexists _, _, _.
  - destruct Hpass as [_ [lines ->]].
    destruct (review_deletion_io (cancel_existing_rename os self) lines io)
      as (kept & self'' & shown & used' & -> & _). by eexists _, _, _.
Qed.

Lemma filter_replacements_after_is_valid_witness :
  let os := mkOS (λ p, String.eqb p "/repo/a.py") (λ p _, p) in
  let code_file_manager :=
    mkCodeFileManager {[ "/repo/a.py"%string := ["l0"%string] ]} in
  let self :=
    mkFileEdit "/repo/a.py" [mkReplacement 0 1 ["x"%string]] false false None in
  ∃ kept self'' io',
    filter_replacements os self code_file_manager (mkConfigManager "/repo")
      (mkUserIO [] [Some true])
    = (Ok (kept, self''), io').
Proof.
  intros os code_file_manager self.
  apply (filter_replacements_after_is_valid os code_file_manager
           (mkConfigManager "/repo") self self).
  reflexivity.
Defined.

(** X12: whatever the user answers, a review that returns leaves the
    path and the flags of the edit as they were, keeps of the
    replacements only some of the old ones, in their old order and
    unchanged, and leaves the rename target or clears it.  It answers
    true only for an edit that is still a creation or a deletion, still
    has a rename target or still has a replacement.  The prompts shown
    before stay, and the replies are taken from the front. *)
Theorem filter_replacements_only_prunes (os : OS)
    (code_file_manager : CodeFileManager) (config : ConfigManager)
    (self self' : FileEdit) (io io' : UserIO) (kept : bool) :
  filter_replacements os self code_file_manager config io
  = (Ok (kept, self'), io') →
  reviewed self self'
  ∧ (kept = true → has_changes self' = true)
  ∧ prompts io `prefix_of` prompts io'
  ∧ answers io' `suffix_of` answers io.
Proof.
  unfold filter_replacements.
  destruct (is_creation self).
  - unfold ask_bind.
    destruct (ask_user_change_io
                (mkDisplayInformation (file_path self) [] [] [] CreateFile
                   None None None)
                "Create this file?" io) as (reply & used & -> & _).
    destruct reply.
    + destruct (review_deletion_io self []
                  (mkUserIO
                     (prompts io
                      ++ [(mkDisplayInformation (file_path self) [] [] []
                             CreateFile None None None,
                           "Create this file?"%string)])
                     (drop used (answers io))))
        as (kept' & self'' & shown & used' & -> & Hrev & Hkept & _).
      intros [= <- <- <-]. simpl. rewrite drop_drop, <-(assoc_L (++)).
      split; [done|]. split; [done|].
      split; [by eexists|apply suffix_drop].
    + unfold ask_ret. intros [= <- <- <-]. simpl.
      split; [apply reviewed_refl|]. split; [done|].
      split; [by eexists|apply suffix_drop].
  - destruct (file_lines code_file_manager !! _) as [lines|]; [|done].
    destruct (review_deletion_io self lines io)
      as (kept' & self'' & shown & used' & -> & Hrev & Hkept & _).
    intros [= <- <- <-]. simpl.
    split; [done|]. split; [done|]. split; [by eexists|apply suffix_drop].
Qed.

Lemma filter_replacements_only_prunes_witness :
  let os := mkOS (λ _, true) (λ p _, p) in
  let code_file_manager :=
    mkCodeFileManager {[ "/repo/a.py"%string := ["l0"; "l1"]%string ]} in
  let first := mkReplacement 0 1 ["x"%string] in
  let second := mkReplacement 1 2 ["y"%string] in
  let self :=
    mkFileEdit "/repo/a.py" [first; second] false false
               (Some "/repo/b.py"%string) in
  let self' := mkFileEdit "/repo/a.py" [second] false false None in
  reviewed self self'
  ∧ (true = true → has_changes self' = true)
  ∧ [] `prefix_of`
      prompts
        (filter_replacements os self code_file_manager
           (mkConfigManager "/repo")
           (mkUserIO [] [Some false; Some false; None; Some true])).2
  ∧ [Some true] `suffix_of` [Some false; Some false; None; Some true].
Proof.
  intros os code_file_manager first second self self'.
  apply (filter_replacements_only_prunes os code_file_manager
           (mkConfigManager "/repo") self self'
           (mkUserIO [] [Some false; Some false; None; Some true])
           (filter_replacements os self code_file_manager
              (mkConfigManager "/repo")
              (mkUserIO [] [Some false; Some false; None; Some true])).2
           true).
  reflexivity.
Defined.

Lemma keep_changes_all_empty self lines rs : ∀ shown_before rest,
  ∃ shown,
    keep_changes self lines rs
      (mkUserIO shown_before (replicate (length rs) None ++ rest))
    = (rs, mkUserIO (shown_before ++ shown) rest)
    ∧ length shown = length rs.
Proof.
  induction rs as [|r rs' IH]; intros shown_before rest; simpl.
  - exists []. by rewrite app_nil_r.
  - unfold ask_bind, ask_user_change, ask_yes_no. simpl.
    destruct (IH (shown_before
                  ++ [(mkDisplayInformation (file_path self) lines
                         (new_lines r)
                         (Py.slice lines (starting_line r) (ending_line r))
                         UpdateFile (Some (starting_line r))
                         (Some (ending_line r)) (rename_file_path self),
                       "Keep this change?"%string)]) rest)
      as (shown & -> & Hlen).
    simpl. eexists (_ :: shown). rewrite <-(assoc_L (++)).
    split; [done|]. simpl. by rewrite Hlen.
Qed.

Lemma review_rename_and_changes_all_empty self lines shown_before rest :
  ∃ shown,
    review_rename_and_changes self lines
      (mkUserIO shown_before
         (replicate ((if rename_file_path self is Some _ then 1 else 0)
                     + length (replacements self)) None ++ rest))
    = (Ok (has_changes self, self), mkUserIO (shown_before ++ shown) rest)
    ∧ length shown
      = ((if rename_file_path self is Some _ then 1 else 0)
         + length (replacements self))%nat.
Proof.
  unfold review_rename_and_changes, ask_bind at 1.
  destruct (rename_file_path self) as [target|] eqn:Hrename.
  - unfold ask_bind at 1, ask_user_change, ask_yes_no. simpl.
    unfold ask_ret, ask_bind.
    destruct (keep_changes_all_empty self lines (replacements self)
                (shown_before
                 ++ [(mkDisplayInformation (file_path self) [] [] []
                        RenameFile None None (Some target),
                      "Rename this file?"%string)]) rest)
      as (shown & -> & Hlen).
    rewrite set_replacements_same.
    eexists (_ :: shown). rewrite <-(assoc_L (++)).
    split; [done|]. simpl. by rewrite Hlen.
  - unfold ask_ret at 1. unfold ask_bind, ask_ret. simpl.
    destruct (keep_changes_all_empty self lines (replacements self)
                shown_before rest) as (shown & -> & Hlen).
    rewrite set_replacements_same. by exists shown.
Qed.

Lemma review_deletion_all_empty self lines shown_before rest :
  ∃ shown,
    review_deletion self lines
      (mkUserIO shown_before
         (replicate ((if is_deletion self then 1 else 0)
                     + (if rename_file_path self is Some _ then 1 else 0)
                     + length (replacements self)) None ++ rest))
    = (Ok (has_changes self, self), mkUserIO (shown_before ++ shown) rest)
    ∧ length shown
      = ((if is_deletion self then 1 else 0)
         + (if rename_file_path self is Some _ then 1 else 0)
         + length (replacements self))%nat.
Proof.
  unfold review_deletion. destruct (is_deletion self).
  - unfold ask_bind, ask_user_change, ask_yes_no. simpl.
    destruct (review_rename_and_changes_all_empty self lines
                (shown_before
                 ++ [(mkDisplayInformation (file_path self) [] [] lines
                        DeleteFile None None None,
                      "Delete this file?"%string)]) rest)
      as (shown & -> & Hlen).
    eexists (_ :: shown). rewrite <-(assoc_L (++)).
    split; [done|]. simpl. by rewrite Hlen.
  - apply review_rename_and_changes_all_empty.
Qed.

(** X13: when the user leaves the reply to every prompt empty, every
    prompt is taken as a yes: the review shows one prompt for the
    creation, one for the deletion, one for the rename and one for each
    replacement, reads one reply for each and no more, leaves the edit
    exactly as it was, and answers true unless the edit has nothing in
    it. *)
Theorem filter_replacements_default_yes (os : OS)
    (code_file_manager : CodeFileManager) (config : ConfigManager)
    (self : FileEdit) (io : UserIO) (rest : list (option bool)) :
  answers io = replicate (full_review_prompts self) None ++ rest →
  (is_creation self = false →
   is_Some (file_lines code_file_manager
              !! relpath os (file_path self) (git_root config))) →
  ∃ shown,
    filter_replacements os self code_file_manager config io
    = (Ok (has_changes self, self), mkUserIO (prompts io ++ shown) rest)
    ∧ length shown = full_review_prompts self.
Proof.
  intros Hreplies Htracked. unfold filter_replacements, full_review_prompts in *.
  destruct io as [shown_before replies]. simpl in Hreplies. subst replies.
  destruct (is_creation self).
  - unfold ask_bind, ask_user_change, ask_yes_no. simpl.
    destruct (review_deletion_all_empty self []
                (shown_before
                 ++ [(mkDisplayInformation (file_path self) [] [] []
                        CreateFile None None None,
                      "Create this file?"%string)]) rest)
      as (shown & Hrun & Hlen).
    rewrite <-!(assoc_L Nat.add) in Hrun, Hlen |- *. simpl.
    rewrite Hrun.
    eexists (_ :: shown). rewrite <-(assoc_L (++)).
    split; [done|]. simpl. by rewrite Hlen.
  - destruct (Htracked eq_refl) as [lines ->]. simpl.
    apply review_deletion_all_empty.
Qed.

Lemma filter_replacements_default_yes_witness :
  let os := mkOS (λ _, true) (λ p _, p) in
  let code_file_manager :=
    mkCodeFileManager {[ "/repo/a.py"%string := ["l0"; "l1"]%string ]} in
  let self :=
    mkFileEdit "/repo/a.py"
      [mkReplacement 0 1 ["x"%string]; mkReplacement 1 2 ["y"%string]]
      false true (Some "/repo/b.py"%string) in
  ∃ shown,
    filter_replacements os self code_file_manager (mkConfigManager "/repo")
      (mkUserIO [] [None; None; None; None; Some false])
    = (Ok (has_changes self, self), mkUserIO ([] ++ shown) [Some false])
    ∧ length shown = full_review_prompts self.
Proof.
  intros os code_file_manager self.
  apply (filter_replacements_default_yes os code_file_manager
           (mkConfigManager "/repo") self
           (mkUserIO [] [None; None; None; None; Some false]) [Some false]).
  - reflexivity.
  - intros _. exists ["l0"; "l1"]%string. reflexivity.
Defined.

Lemma keep_changes_all_declined self lines rs : ∀ shown_before n,
  ∃ shown,
    keep_changes self lines rs
      (mkUserIO shown_before (replicate (length rs + n) (Some false)))
    = ([], mkUserIO (shown_before ++ shown) (replicate n (Some false)))
    ∧ length shown = length rs.
Proof.
  induction rs as [|r rest IH]; intros shown_before n; simpl.
  - exists []. by rewrite app_nil_r.
  - unfold ask_bind, ask_user_change, ask_yes_no. simpl.
    destruct (IH (shown_before
                  ++ [(mkDisplayInformation (file_path self) lines
                         (new_lines r)
                         (Py.slice lines (starting_line r) (ending_line r))
                         UpdateFile (Some (starting_line r))
                         (Some (ending_line r)) (rename_file_path self),
                       "Keep this change?"%string)]) n)
      as (shown & -> & Hlen).
    simpl. eexists (_ :: shown). rewrite <-(assoc_L (++)).
    split; [done|]. simpl. by rewrite Hlen.
Qed.

(** X14: an edit that is neither a creation nor a deletion, all of whose
    prompts the user declines, comes out of the review with no rename
    target and no replacement, and the review answers false. *)
Theorem filter_replacements_all_declined (os : OS)
    (code_file_manager : CodeFileManager) (config : ConfigManager)
    (self : FileEdit) (io : UserIO) (lines : list string) (spare : nat) :
  is_creation self = false →
  is_deletion self = false →
  file_lines code_file_manager
    !! relpath os (file_path self) (git_root config) = Some lines →
  answers io = replicate (full_review_prompts self + spare) (Some false) →
  ∃ shown,
    filter_replacements os self code_file_manager config io
    = (Ok (false, set_replacements (set_rename_file_path self None) []),
       mkUserIO (prompts io ++ shown) (replicate spare (Some false)))
    ∧ length shown = full_review_prompts self.
Proof.
  intros Hcreation Hdeletion Hlines Hans.
  unfold filter_replacements, full_review_prompts in *.
  rewrite Hcreation, Hlines. unfold review_deletion. rewrite Hdeletion.
  rewrite Hcreation, Hdeletion in Hans.
  destruct io as [shown_before replies]. simpl in Hans. subst replies.
  unfold review_rename_and_changes, ask_bind at 1.
  destruct (rename_file_path self) as [target|] eqn:Hrename.
  - unfold ask_bind at 1, ask_user_change, ask_yes_no. simpl.
    unfold ask_ret, ask_bind.
    destruct (keep_changes_all_declined (set_rename_file_path self None)
                lines (replacements self)
                (shown_before
                 ++ [(mkDisplayInformation (file_path self) [] [] []
                        RenameFile None None (Some target),
                      "Rename this file?"%string)]) spare)
      as (shown & -> & Hlen).
    simpl. eexists (_ :: shown). rewrite <-(assoc_L (++)).
    split; [|simpl; by rewrite Hlen].
    unfold has_changes, set_replacements, set_rename_file_path. simpl.
    by rewrite Hcreation, Hdeletion.
  - unfold ask_ret at 1. unfold ask_bind, ask_ret. simpl.
    destruct (keep_changes_all_declined self lines (replacements self)
                shown_before spare) as (shown & -> & Hlen).
    exists shown. split; [|done].
    unfold set_replacements, set_rename_file_path. simpl.
    by rewrite Hcreation, Hdeletion, Hrename.
Qed.

Lemma filter_replacements_all_declined_witness :
  let os := mkOS (λ _, true) (λ p _, p) in
  let code_file_manager :=
    mkCodeFileManager {[ "/repo/a.py"%string := ["l0"; "l1"]%string ]} in
  let self :=
    mkFileEdit "/repo/a.py"
      [mkReplacement 0 1 ["x"%string]; mkReplacement 1 2 ["y"%string]]
      false false (Some "/repo/b.py"%string) in
  ∃ shown,
    filter_replacements os self code_file_manager (mkConfigManager "/repo")
      (mkUserIO [] [Some false; Some false; Some false; Some false])
    = (Ok (false, mkFileEdit "/repo/a.py" [] false false None),
       mkUserIO ([] ++ shown) [Some false])
    ∧ length shown = 3%nat.
Proof.
  intros os code_file_manager self.
  apply (filter_replacements_all_declined os code_file_manager
           (mkConfigManager "/repo") self
           (mkUserIO [] [Some false; Some false; Some false; Some false])
           ["l0"; "l1"]%string 1); reflexivity.
Defined.

(** ** The streaming printer, further *)

Lemma string_app_cons c (s t : string) :
  (String c s ++ t)%string = String c (s ++ t).
Proof. reflexivity. Qed.

Lemma string_app_nil_r (s : string) : (s ++ "")%string = s.
Proof.
  induction s as [|c s IH]; [done|]. by rewrite string_app_cons, IH.
Qed.

Lemma string_app_assoc (s1 s2 s3 : string) :
  ((s1 ++ s2) ++ s3)%string = (s1 ++ s2 ++ s3)%string.
Proof.
  induction s1 as [|c s1 IH]; [done|]. by rewrite !string_app_cons, IH.
Qed.

Lemma string_length_app (s1 s2 : string) :
  String.length (s1 ++ s2) = (String.length s1 + String.length s2)%nat.
Proof.
  induction s1 as [|c s1 IH]; [done|]. rewrite string_app_cons. simpl.
  by rewrite IH.
Qed.

Lemma substring_all (s : string) : String.substring 0 (String.length s) s = s.
Proof. induction s as [|c s IH]; simpl; [done|by rewrite IH]. Qed.

Lemma substring_nothing (s : string) n : String.substring n 0 s = ""%string.
Proof. revert n; induction s as [|c s IH]; intros [|n]; simpl; auto. Qed.

Lemma substring_length_le (s : string) : ∀ n m,
  (String.length (String.substring n m s) ≤ String.length s - n)%nat.
Proof.
  induction s as [|c s IH]; intros [|n] [|m]; simpl; try lia.
  - specialize (IH 0%nat m). lia.
  - apply IH.
  - apply IH.
Qed.

Lemma substring_split (s : string) : ∀ n,
  (n ≤ String.length s)%nat →
  s = (String.substring 0 n s
       ++ String.substring n (String.length s - n) s)%string.
Proof.
  induction s as [|c s IH]; intros [|n] Hn; simpl in *; try lia; try done.
  - by rewrite substring_all.
  - rewrite string_app_cons. f_equal. apply IH. lia.
Qed.

Lemma substring_three (s : string) : ∀ m k,
  (m + k ≤ String.length s)%nat →
  s = (String.substring 0 m s
       ++ String.substring m k s
       ++ String.substring (m + k) (String.length s - (m + k)) s)%string.
Proof.
  induction s as [|c s IH]; intros [|m] k Hk.
  - simpl in *. by replace k with 0%nat by lia.
  - simpl in *. lia.
  - apply (substring_split (String c s) k Hk).
  - simpl in *. rewrite string_app_cons. f_equal. apply IH. lia.
Qed.

Lemma joined_cons (x : string) l : joined (x :: l) = (x ++ joined l)%string.
Proof. reflexivity. Qed.

Lemma joined_characters_of (s : string) : joined (characters_of s) = s.
Proof.
  induction s as [|c s IH]; [done|].
  simpl characters_of. by rewrite joined_cons, IH.
Qed.

Lemma length_characters_of (s : string) :
  length (characters_of s) = String.length s.
Proof. induction s as [|c s IH]; simpl; [done|by rewrite IH]. Qed.

Lemma joined_alter_first (pre : string) (l : list string) :
  l ≠ [] →
  joined (alter (λ c, (pre ++ c)%string) 0%nat l) = (pre ++ joined l)%string.
Proof.
  destruct l as [|x l]; [done|]. intros _.
  change (alter ?f 0%nat (x :: l)) with (f x :: l).
  rewrite !joined_cons. apply string_app_assoc.
Qed.

Lemma joined_alter_last (suf : string) (l : list string) :
  l ≠ [] →
  joined (alter (λ c, (c ++ suf)%string) (length l - 1)%nat l)
  = (joined l ++ suf)%string.
Proof.
  induction l as [|x l IH]; [done|]. intros _.
  destruct l as [|y l].
  - change (joined [(x ++ suf)%string] = (joined [x] ++ suf)%string).
    rewrite !joined_cons. change (joined []) with ""%string.
    by rewrite !string_app_nil_r.
  - replace (length (x :: y :: l) - 1)%nat with (S (length (y :: l) - 1))
      by (simpl; lia).
    change (alter ?f (S ?i) (x :: ?t)) with (x :: alter f i t).
    rewrite !joined_cons, IH by done. by rewrite string_app_assoc.
Qed.

(** X15: a call of [add_string] that returns, on a printer that is not
    shut down and with a string that is not empty, leaves the flag
    alone and adds to the back of the queue one piece for each character
    of the string with its [end]; read in a row, the pieces spell the
    text as [colored] returned it (the text itself when no color is
    given), and [chars_remaining] goes up by their number. *)
Theorem add_string_queues_the_colored_text
    (colored : string → string → string) (self self' : StreamingPrinter)
    (string_ end_ : string) (color : option string) :
  shutdown self = false →
  string_ ≠ ""%string →
  add_string colored self string_ end_ color = Ok self' →
  ∃ added,
    strings_to_print self' = strings_to_print self ++ added
    ∧ length added = String.length (string_ ++ end_)
    ∧ joined added
      = match color with
        | Some c => colored (string_ ++ end_)%string c
        | None => (string_ ++ end_)%string
        end
    ∧ chars_remaining self' = chars_remaining self + Py.len added
    ∧ shutdown self' = false.
Proof.
  intros Hshutdown Hne. unfold add_string. rewrite Hshutdown.
  destruct (String.length string_ =? 0)%nat eqn:Hlen.
  { apply Nat.eqb_eq in Hlen. by destruct string_. }
  set (text := (string_ ++ end_)%string).
  set (colored_string :=
         match color with Some c => colored text c | None => text end).
  destruct (String.index 0 text colored_string) as [index|] eqn:Hindex; [|done].
  intros [= <-]. simpl.
  assert (characters_of text ≠ []) as Hchars.
  { unfold text. by destruct string_. }
  eexists. split; [done|].
  split; [by rewrite !length_alter, length_characters_of|]. split; [|done].
  rewrite joined_alter_last.
  2:{ intros Hnil. apply (f_equal length) in Hnil.
      rewrite length_alter in Hnil. by destruct (characters_of text). }
  rewrite joined_alter_first by done. rewrite joined_characters_of.
  pose proof (String.index_correct1 _ _ _ _ Hindex) as Hsub.
  assert (index + String.length text ≤ String.length colored_string)%nat
    as Hbound.
  { pose proof (substring_length_le colored_string index (String.length text))
      as Hle.
    rewrite Hsub in Hle.
    assert (0 < String.length text)%nat
      by (unfold text; destruct string_; [done|simpl; lia]).
    lia. }
  symmetry.
  etrans; [apply (substring_three colored_string index _ Hbound)|].
  by rewrite Hsub, string_app_assoc.
Qed.

Lemma add_string_queues_the_colored_text_witness :
  let colored := λ s c : string, ("<" ++ c ++ ">" ++ s ++ "</>")%string in
  ∃ added,
    ["x"%string; "<red>h"; "i"; "!</>"]%string = ["x"%string] ++ added
    ∧ length added = String.length ("hi" ++ "!")
    ∧ joined added = "<red>hi!</>"%string
    ∧ 4 = 1 + Py.len added
    ∧ false = false.
Proof.
  intros colored.
  apply (add_string_queues_the_colored_text colored
           (mkStreamingPrinter ["x"%string] 1 false)
           (mkStreamingPrinter ["x"%string; "<red>h"; "i"; "!</>"]%string 4 false)
           "hi" "!" (Some "red"%string)); [reflexivity|discriminate|reflexivity].
Defined.

(** X16: whenever [sleep_time] returns, the time lies between
    [min_sleep] and the 0.006 of [max_sleep]; once shutdown is asked for
    it is [min_sleep], and so it is for a backlog of 499 characters or
    more, while for a backlog of at most 165 characters without shutdown
    it is 0.006. *)
Theorem sleep_time_bounds (self : StreamingPrinter) (t : Q) :
  sleep_time self = Ok t →
  ((2 # 1000) <= t)%Q
  ∧ (t <= (6 # 1000))%Q
  ∧ (shutdown self = true → (t == (2 # 1000))%Q)
  ∧ (499 <= chars_remaining self → (t == (2 # 1000))%Q)
  ∧ (shutdown self = false → 0 <= chars_remaining self <= 165 →
     (t == (6 # 1000))%Q).
Proof.
  unfold sleep_time.
  destruct (sleep_divisor self =? 0) eqn:Hdiv; [done|].
  intros [= <-].
  set (required := (1 / inject_Z (sleep_divisor self))%Q).
  set (max_sleep := if shutdown self then (2 # 1000)%Q else (6 # 1000)%Q).
  assert (max_sleep <= 6 # 1000)%Q as Hmax
    by (unfold max_sleep; by destruct (shutdown self)).
  split; [apply Q.le_max_r|]. split.
  { apply Q.max_lub; [|done].
    eapply Qle_trans; [apply Q.le_min_l|exact Hmax]. }
  split; [|split].
  - intros Hs. apply Q.max_r. eapply Qle_trans; [apply Q.le_min_l|].
    unfold max_sleep. by rewrite Hs.
  - intros Hn. apply Q.max_r. eapply Qle_trans; [apply Q.le_min_r|].
    unfold required, sleep_divisor.
    destruct (chars_remaining self + 1) as [|p|p] eqn:Hp; try lia.
    unfold Qle. simpl. lia.
  - intros Hs Hn. unfold max_sleep. rewrite Hs.
    assert ((6 # 1000) <= required)%Q as Hreq.
    { unfold required, sleep_divisor.
      destruct (chars_remaining self + 1) as [|p|p] eqn:Hp; try lia.
      unfold Qle. simpl. lia. }
    rewrite Q.min_l by done. by apply Q.max_l.
Qed.

Lemma sleep_time_bounds_witness :
  ((2 # 1000) <= 1 / inject_Z 201)%Q
  ∧ (1 / inject_Z 201 <= (6 # 1000))%Q
  ∧ (false = true → (1 / inject_Z 201 == (2 # 1000))%Q)
  ∧ (499 <= 200 → (1 / inject_Z 201 == (2 # 1000))%Q)
  ∧ (false = false → 0 <= 200 <= 165 → (1 / inject_Z 201 == (6 # 1000))%Q).
Proof.
  apply (sleep_time_bounds (mkStreamingPrinter [] 200 false)).
  reflexivity.
Defined.

Lemma with_printer_same task : with_printer task (printer task) = task.
Proof. by destruct task. Qed.

Lemma enter_sleep_fields self out :
  printer (enter_sleep self out) = self ∧ sent (enter_sleep self out) = out
  ∧ in_flight (location (enter_sleep self out)) = 0.
Proof. unfold enter_sleep. by destruct (sleep_time self). Qed.

Lemma handle_after_shutdown colored task ev :
  shutdown (printer task) = true →
  let task' := handle colored task ev in
  shutdown (printer task') = true
  ∧ strings_to_print (printer task') = strings_to_print (printer task)
  ∧ sent task `prefix_of` sent task'
  ∧ Py.len (sent task') + in_flight (location task')
    <= Py.len (sent task) + in_flight (location task).
Proof.
  intros Hs. destruct ev as [string_ end_ color| |]; simpl.
  - rewrite add_string_after_shutdown, with_printer_same by done.
    split; [done|]. split; [done|]. split; [done|lia].
  - split; [done|]. split; [done|]. split; [done|lia].
  - unfold resume_print_lines. rewrite Hs.
    destruct (location task) as [|next_string|t| |e] eqn:Hloc.
    + simpl. split; [done|]. split; [done|]. split; [done|lia].
    + destruct (enter_sleep_fields
                  {| strings_to_print := strings_to_print (printer task);
                     chars_remaining := chars_remaining (printer task) - 1;
                     shutdown := true |}
                  (sent task ++ [next_string])) as (-> & -> & ->).
      simpl. split; [done|]. split; [done|].
      split; [by apply prefix_app_r|].
      unfold Py.len. rewrite length_app. simpl. lia.
    + simpl. split; [done|]. split; [done|]. split; [done|lia].
    + rewrite Hloc. simpl. split; [done|]. split; [done|]. split; [done|lia].
    + rewrite Hloc. simpl. split; [done|]. split; [done|]. split; [done|lia].
Qed.

(** X17: shutdown is for good.  Once the flag is set it stays set,
    [add_string] queues nothing and the drain loop takes nothing more
    from the queue, whatever follows; the stream receives at most the
    one string that was being sent when the flag was set. *)
Theorem shutdown_freezes_the_queue (colored : string → string → string)
    (task : PrinterTask) (evs : list Event) :
  shutdown (printer task) = true →
  let task' := run colored task evs in
  shutdown (printer task') = true
  ∧ strings_to_print (printer task') = strings_to_print (printer task)
  ∧ sent task `prefix_of` sent task'
  ∧ Py.len (sent task') <= Py.len (sent task) + in_flight (location task).
Proof.
  revert task. induction evs as [|ev evs IH]; intros task Hs; simpl.
  - split; [done|]. split; [done|]. split; [done|].
    destruct (location task); simpl; lia.
  - destruct (handle_after_shutdown colored task ev Hs)
      as (Hs' & Hq & Hpre & Hlen).
    destruct (IH (handle colored task ev) Hs') as (Hs'' & Hq' & Hpre' & Hlen').
    split; [done|]. split; [congruence|]. split; [by etrans|].
    unfold run in *. lia.
Qed.

Lemma shutdown_freezes_the_queue_witness :
  let colored := λ s _ : string, s in
  let task :=
    mkPrinterTask (mkStreamingPrinter ["b"; "c"]%string 3 true)
                  (AwaitSend "a") [] in
  let task' :=
    run colored task [Resume; CallAddString "d" "" None; Resume; Resume] in
  shutdown (printer task') = true
  ∧ strings_to_print (printer task') = ["b"; "c"]%string
  ∧ [] `prefix_of` sent task'
  ∧ Py.len (sent task') <= Py.len (@nil string) + 1.
Proof.
  intros colored task task'.
  apply (shutdown_freezes_the_queue colored task
           [Resume; CallAddString "d" "" None; Resume; Resume]).
  reflexivity.
Defined.

Lemma resume_print_lines_stream_order task :
  stream_order (resume_print_lines task) = stream_order task.
Proof.
  unfold resume_print_lines, stream_order.
  destruct (location task) as [|next_string|t| |e] eqn:Hloc; simpl.
  - destruct (shutdown (printer task)); [done|].
    destruct (strings_to_print (printer task)) as [|next_string rest] eqn:Hq.
    + unfold enter_sleep. destruct (sleep_time _); simpl; by rewrite Hq.
    + done.
  - unfold enter_sleep. destruct (sleep_time _); simpl;
      by rewrite <-(assoc_L (++)).
  - done.
  - by rewrite Hloc.
  - by rewrite Hloc.
Qed.

Lemma handle_stream_order colored task ev :
  stream_order task `prefix_of` stream_order (handle colored task ev)
  ∧ (ev = Resume ∨ ev = CallWrapItUp →
     stream_order (handle colored task ev) = stream_order task).
Proof.
  destruct ev as [string_ end_ color| |]; simpl.
  - split; [|by intros [|]].
    destruct (add_string colored (printer task) string_ end_ color)
      as [self'|e] eqn:Hadd; [|done].
    unfold stream_order. simpl.
    assert (strings_to_print (printer task)
            `prefix_of` strings_to_print self') as [added ->].
    { unfold add_string in Hadd.
      destruct (shutdown (printer task)); [by injection Hadd as <-|].
      destruct (String.length string_ =? 0)%nat; [by injection Hadd as <-|].
      destruct (String.index _ _ _); [|done].
      injection Hadd as <-. simpl. by eexists. }
    rewrite !(assoc_L (++)). by eexists.
  - by split.
  - rewrite resume_print_lines_stream_order. by split.
Qed.

(** X18: the drain loop sends in the order of the queue and loses no
    string on the way: resuming it, or calling [wrap_it_up], leaves
    "sent, then being sent, then queued" the same list, and
    [add_string] only ever adds to its end. *)
Theorem drain_loop_keeps_stream_order (colored : string → string → string)
    (task : PrinterTask) (evs : list Event) :
  stream_order task `prefix_of` stream_order (run colored task evs)
  ∧ sent (run colored task evs)
    `prefix_of` stream_order (run colored task evs)
  ∧ (Forall (λ ev, ev = Resume ∨ ev = CallWrapItUp) evs →
     stream_order (run colored task evs) = stream_order task).
Proof.
  split; [|split].
  - revert task. induction evs as [|ev evs IH]; intros task; [done|].
    simpl. etrans; [apply (handle_stream_order colored task ev)|apply IH].
  - unfold stream_order. by eexists.
  - revert task. induction evs as [|ev evs IH]; intros task Hevs; [done|].
    apply Forall_cons in Hevs as [Hev Hevs]. simpl.
    etrans; [by apply IH|]. by apply handle_stream_order.
Qed.

Lemma run_app colored task evs1 evs2 :
  run colored task (evs1 ++ evs2) = run colored (run colored task evs1) evs2.
Proof. apply foldl_app. Qed.

Lemma drain_step (colored : string → string → string) queue out
    next_string rest :
  queue = next_string :: rest →
  run colored
    (mkPrinterTask (mkStreamingPrinter queue (Py.len queue) false)
                   AtLoopTop out)
    [Resume; Resume; Resume]
  = mkPrinterTask (mkStreamingPrinter rest (Py.len rest) false)
                  AtLoopTop (out ++ [next_string]).
Proof.
  intros ->. unfold run. simpl. unfold resume_print_lines at 3. simpl.
  unfold resume_print_lines at 2. simpl.
  replace (Py.len (next_string :: rest) - 1) with (Py.len rest)
    by (unfold Py.len; simpl; lia).
  unfold enter_sleep.
  destruct (sleep_time_ok (mkStreamingPrinter rest (Py.len rest) false))
    as [t ->]; [unfold Py.len; simpl; lia|].
  done.
Qed.

(** X19: left alone with a queue of [n] strings and no shutdown, the
    drain loop sends them all, in order, within [3 * n] resumptions
    (dequeue, end of send, end of sleep), and is back at the top of its
    loop with nothing queued and nothing counted. *)
Theorem drain_loop_empties_the_queue (colored : string → string → string)
    (queue out : list string) :
  run colored
    (mkPrinterTask (mkStreamingPrinter queue (Py.len queue) false)
                   AtLoopTop out)
    (replicate (3 * length queue) Resume)
  = mkPrinterTask (mkStreamingPrinter [] 0 false) AtLoopTop (out ++ queue).
Proof.
  revert out. induction queue as [|next_string rest IH]; intros out.
  - by rewrite app_nil_r.
  - replace (3 * length (next_string :: rest))%nat
      with (3 + 3 * length rest)%nat by (simpl; lia).
    rewrite replicate_add, run_app.
    change (replicate 3 Resume) with [Resume; Resume; Resume].
    rewrite (drain_step colored _ out next_string rest) by done.
    rewrite IH. by rewrite <-(assoc_L (++)).
Qed.

(** ** The command registry *)

Lemma dict_get_keys {V} (d : list (string * V)) key :
  key ∈ dict_keys d ↔ is_Some (dict_get d key).
Proof.
  unfold dict_keys. induction d as [|[k v] rest IH]; simpl.
  - split; [by intros ?%elem_of_nil|by intros [? ?]].
  - csimpl. rewrite elem_of_cons, IH.
    destruct (String.eqb_spec k key) as [->|Hne].
    + split; [by eexists|by left].
    + split; [intros [?|?]; [congruence|done]|by right].
Qed.

(** X20: a command name is looked up in the registry exactly as the
    completions are made from it: a registered name gives a command of
    the registered class and has its completion ["/" + name]; any other
    name gives an [InvalidCommand] that remembers the name, and has no
    completion.  Every completion names a registered command. *)
Theorem create_command_agrees_with_completions
    (registered : list (string * CommandClass)) (command_name : string) :
  (∀ cls,
     dict_get registered command_name = Some cls →
     create_command registered command_name = NewCommand cls
     ∧ "/" +:+ command_name ∈ get_command_completions registered)
  ∧ (dict_get registered command_name = None →
     create_command registered command_name = NewInvalidCommand command_name
     ∧ "/" +:+ command_name ∉ get_command_completions registered)
  ∧ (∀ completion,
       completion ∈ get_command_completions registered →
       ∃ name cls,
         completion = "/" +:+ name
         ∧ create_command registered name = NewCommand cls).
Proof.
  unfold create_command, get_command_completions. split; [|split].
  - intros cls Hget. rewrite Hget. split; [done|].
    apply list_elem_of_fmap_2, dict_get_keys. by eexists.
  - intros Hget. rewrite Hget. split; [done|].
    intros (name & Heq & Hin)%list_elem_of_fmap.
    apply (inj (String.append "/")) in Heq. subst name.
    apply dict_get_keys in Hin as [cls Hcls]. congruence.
  - intros completion (name & -> & Hin)%list_elem_of_fmap.
    apply dict_get_keys in Hin as [cls Hcls].
    exists name, cls. by rewrite Hcls.
Qed.

Lemma help_line_registered command_name cls :
  dict_get registered_commands command_name = Some cls →
  ∃ usage help,
    help_message cls = Ok help
    ∧ help_line registered_commands command_name = Ok (usage +:+ help, None)
    ∧ String.length usage = help_message_width
    ∧ String.prefix ("/" +:+ command_name) usage = true.
Proof.
  intros Hget. unfold help_line. rewrite Hget.
  assert (command_name ∈ dict_keys registered_commands) as Hin
    by (apply dict_get_keys; by eexists).
  vm_compute in Hin.
  repeat (apply elem_of_cons in Hin as [->|Hin];
          [vm_compute in Hget; injection Hget as <-;
           eexists _, _; split; [reflexivity|];
           split; [reflexivity|]; split; reflexivity|]).
  by apply elem_of_nil in Hin.
Qed.

Lemma help_lines_registered commands :
  ∃ lines,
    help_lines registered_commands commands = (lines, None)
    ∧ Forall2
        (λ command_name line,
           match dict_get registered_commands command_name with
           | None =>
               line
               = ("Error: Command " +:+ command_name +:+ " does not exist.",
                  Some "red"%string)
           | Some cls =>
               ∃ usage help,
                 help_message cls = Ok help
                 ∧ line = (usage +:+ help, None)
                 ∧ String.length usage = help_message_width
                 ∧ String.prefix ("/" +:+ command_name) usage = true
           end)
        commands lines.
Proof.
  induction commands as [|command_name rest (lines & IH & Hall)];
    cbn [help_lines].
  - by exists [].
  - destruct (dict_get registered_commands command_name) as [cls|] eqn:Hget.
    + destruct (help_line_registered command_name cls Hget)
        as (usage & help & Hhelp & -> & Hlen & Hpre).
      rewrite IH. eexists. split; [done|]. constructor; [|done].
      cbv beta. rewrite Hget. by exists usage, help.
    + unfold help_line. rewrite Hget, IH. eexists. split; [done|].
      constructor; [|done]. cbv beta. by rewrite Hget.
Qed.

(** X21: [/help] never fails.  It sends one message for each name it is
    given, in their order, and one for each of the eight registered
    commands, in the order of their declaration, when it is given none:
    for a registered name the usage, starting with ["/" + name] and
    padded to exactly 60 columns, followed by the help message of the
    class; for any other name the red error line. *)
Theorem help_sends_a_line_per_command (args : list string) :
  let commands :=
    match args with
    | [] => ["help"; "commit"; "include"; "exclude"; "undo"; "undo-all";
             "clear"; "search"]%string
    | _ => args
    end in
  ∃ lines,
    HelpCommand_apply registered_commands args = (lines, None)
    ∧ Forall2
        (λ command_name line,
           match dict_get registered_commands command_name with
           | None =>
               line
               = ("Error: Command " +:+ command_name +:+ " does not exist.",
                  Some "red"%string)
           | Some cls =>
               ∃ usage help,
                 help_message cls = Ok help
                 ∧ line = (usage +:+ help, None)
                 ∧ String.length usage = help_message_width
                 ∧ String.prefix ("/" +:+ command_name) usage = true
           end)
        commands lines.
Proof.
  intros commands. unfold HelpCommand_apply.
  destruct args as [|arg args]; apply help_lines_registered.
Qed.

(** ** The exit flags of the engine *)

Lemma iter_handle_exit (n : nat) :
  Nat.iter n handle_exit new_engine
  = mkMentatEngine (bool_decide (1 ≤ n)%nat) (bool_decide (2 ≤ n)%nat).
Proof.
  induction n as [|n IH]; [done|].
  change (Nat.iter (S n) handle_exit new_engine)
    with (handle_exit (Nat.iter n handle_exit new_engine)).
  rewrite IH. unfold handle_exit. simpl.
  repeat case_bool_decide; try lia; done.
Qed.

(** X22: the first signal asks the engine to exit and the second one
    forces it: after [n] calls of the signal handler on a new engine
    [_should_exit] is set exactly when [n >= 1] and [_force_exit]
    exactly when [n >= 2], and neither flag is ever taken back. *)
Theorem handle_exit_counts_signals (n : nat) :
  let self := Nat.iter n handle_exit new_engine in
  should_exit self = bool_decide (1 ≤ n)%nat
  ∧ force_exit self = bool_decide (2 ≤ n)%nat
  ∧ should_exit (handle_exit self) = true
  ∧ (force_exit self = true → force_exit (handle_exit self) = true).
Proof.
  intros self. unfold self. rewrite iter_handle_exit.
  unfold handle_exit. simpl.
  repeat case_bool_decide; simpl; try lia; done.
Qed.

(** ** The indexes of the completions *)

Lemma refresh_completions_for_file_path_cases env created self file_path :
  let after := refresh_completions_for_file_path env created self file_path in
  after.1 = self
  ∨ (∃ completion,
       after.2 = None
       ∧ (∀ word, word ∈ words completion → (1 < String.length word)%nat)
       ∧ syntax_completions after.1
         = <[file_path := completion]> (syntax_completions self)
       ∧ file_name_completions after.1
         = <[path_name env file_path :=
               default ∅ (file_name_completions self
                            !! path_name env file_path)
               ∪ {[file_path]}]>
             (file_name_completions self)
       ∧ all_syntax_words after.1 = all_syntax_words self
       ∧ last_refresh_at after.1 = last_refresh_at self).
Proof.
  unfold refresh_completions_for_file_path.
  destruct (read_text env file_path) as [[| |]|file_content]; simpl; auto.
  destruct (get_tokens env file_path file_content) as [tokens|]; simpl; auto.
  right. eexists. split; [done|]. split; [|done].
  intros word Hword. simpl in Hword.
  apply elem_of_list_to_set, list_elem_of_fmap in Hword
    as ([token_type value] & -> & Hin).
  apply list_elem_of_filter in Hin as [[_ Hlong] _]. done.
Qed.

Lemma refresh_completions_for_file_path_agree env created self file_path :
  indexes_agree env self →
  indexes_agree env
    (refresh_completions_for_file_path env created self file_path).1.
Proof.
  intros [Hagree Hnonempty].
  destruct (refresh_completions_for_file_path_cases env created self file_path)
    as [->|(completion & _ & _ & Hsc & Hnames & _)]; [done|].
  split.
  - intros name q. rewrite Hsc, Hnames, lookup_insert_is_Some'.
    destruct (decide (path_name env file_path = name)) as [<-|Hne].
    + rewrite lookup_insert_eq. split.
      * intros (paths & [= <-] & [Hq| ->%elem_of_singleton]%elem_of_union);
          [|auto].
        destruct (file_name_completions self !! path_name env file_path)
          as [paths|] eqn:Hpaths; simpl in Hq; [|set_solver].
        destruct (proj1 (Hagree (path_name env file_path) q)) as [Hs Hn];
          [by eexists|]. auto.
      * intros [Hs Hn]. eexists. split; [done|].
        destruct Hs as [->|Hs];
          [apply elem_of_union; right; by apply elem_of_singleton|].
        destruct (proj2 (Hagree (path_name env file_path) q))
          as (paths & -> & Hin); [done|]. simpl.
        apply elem_of_union. by left.
    + rewrite lookup_insert_ne by done. rewrite Hagree. split.
      * intros [Hs Hn]. auto.
      * intros [[->|Hs] Hn]; [done|]. split; done.
  - intros name. rewrite Hnames.
    destruct (decide (path_name env file_path = name)) as [<-|Hne].
    + rewrite lookup_insert_eq. intros [= Hempty].
      apply (not_elem_of_empty (C:=gset string) file_path).
      rewrite <-Hempty. apply elem_of_union. right. by apply elem_of_singleton.
    + by rewrite lookup_insert_ne.
Qed.

Lemma forget_file_path_agree env self file_path :
  indexes_agree env self →
  is_Some (syntax_completions self !! file_path) →
  let after := forget_file_path env self file_path in
  after.2 = None
  ∧ indexes_agree env after.1
  ∧ syntax_completions after.1
    = (if bool_decide (file_path ∈ context_files env)
       then syntax_completions self
       else delete file_path (syntax_completions self))
  ∧ all_syntax_words after.1 = all_syntax_words self
  ∧ last_refresh_at after.1 = last_refresh_at self.
Proof.
  intros [Hagree Hnonempty] Hthere. unfold forget_file_path.
  case_bool_decide as Hctx; simpl; [done|].
  destruct (proj2 (Hagree (path_name env file_path) file_path))
    as (paths & Hpaths & Hin); [done|].
  rewrite Hpaths. simpl. rewrite bool_decide_eq_true_2 by done. simpl.
  split; [done|]. split; [|done]. split; simpl.
  - intros name q.
    destruct (decide (path_name env file_path = name)) as [<-|Hne].
    + assert ((∃ paths',
                 (if bool_decide (size (paths ∖ {[file_path]}) = 0%nat)
                  then delete (path_name env file_path)
                         (file_name_completions self)
                  else <[path_name env file_path := paths ∖ {[file_path]}]>
                         (file_name_completions self))
                 !! path_name env file_path = Some paths' ∧ q ∈ paths')
              ↔ q ∈ paths ∖ {[file_path]}) as ->.
      { case_bool_decide as Hsize.
        - apply size_empty_iff in Hsize. rewrite lookup_delete_eq.
          split; [by intros (? & ? & ?)|]. intros Hq.
          rewrite Hsize in Hq. by apply not_elem_of_empty in Hq.
        - rewrite lookup_insert_eq. split; [by intros (? & [= <-] & ?)|].
          intros Hq. by eexists. }
      rewrite lookup_delete_is_Some, elem_of_difference, elem_of_singleton.
      split.
      * intros [Hq Hne].
        destruct (proj1 (Hagree (path_name env file_path) q)) as [Hs Hn];
          [by eexists|]. done.
      * intros [[Hne Hs] Hn].
        destruct (proj2 (Hagree (path_name env file_path) q))
          as (paths' & Hpaths' & Hq); [done|].
        split; [congruence|done].
    + assert ((if bool_decide (size (paths ∖ {[file_path]}) = 0%nat)
               then delete (path_name env file_path)
                      (file_name_completions self)
               else <[path_name env file_path := paths ∖ {[file_path]}]>
                      (file_name_completions self)) !! name
              = file_name_completions self !! name) as ->.
      { case_bool_decide; [by rewrite lookup_delete_ne|
                           by rewrite lookup_insert_ne]. }
      rewrite Hagree, lookup_delete_is_Some. split.
      * intros [Hs Hn]. split; [|done]. split; [congruence|done].
      * intros [[_ Hs] Hn]. done.
  - intros name. case_bool_decide as Hsize.
    + destruct (decide (path_name env file_path = name)) as [<-|Hne].
      * by rewrite lookup_delete_eq.
      * by rewrite lookup_delete_ne.
    + destruct (decide (path_name env file_path = name)) as [<-|Hne].
      * rewrite lookup_insert_eq. intros [= Hempty].
        by rewrite Hempty, size_empty in Hsize.
      * by rewrite lookup_insert_ne.
Qed.

Lemma for_each_forget env paths : ∀ self,
  indexes_agree env self →
  NoDup paths →
  (∀ file_path, file_path ∈ paths →
                is_Some (syntax_completions self !! file_path)) →
  let after := for_each (forget_file_path env) self paths in
  after.2 = None
  ∧ indexes_agree env after.1
  ∧ (∀ file_path,
       syntax_completions after.1 !! file_path
       = if bool_decide (file_path ∈ paths ∧ file_path ∉ context_files env)
         then None
         else syntax_completions self !! file_path)
  ∧ all_syntax_words after.1 = all_syntax_words self
  ∧ last_refresh_at after.1 = last_refresh_at self.
Proof.
  induction paths as [|p rest IH]; intros self Hagree Hnodup Hthere;
    cbn [for_each].
  - split; [done|]. split; [done|]. split; [|done].
    intros q. case_bool_decide as Hq; [|done].
    by destruct Hq as [?%elem_of_nil _].
  - apply NoDup_cons in Hnodup as [Hp Hnodup].
    destruct (forget_file_path_agree env self p Hagree)
      as (Hnone & Hagree' & Hsc & Hwords & Hlast);
      [apply Hthere; left|].
    destruct (forget_file_path env self p) as [self' raised].
    simpl in Hnone, Hagree', Hsc, Hwords, Hlast. subst raised.
    destruct (IH self' Hagree' Hnodup) as (Hnone' & Hagree'' & Hsc' & Hw & Hl).
    { intros q Hq. rewrite Hsc. case_bool_decide.
      - apply Hthere. by right.
      - rewrite lookup_delete_is_Some. split; [by intros ->|].
        apply Hthere. by right. }
    split; [done|]. split; [done|]. split; [|split; congruence].
    intros q. rewrite Hsc', Hsc.
    destruct (decide (q = p)) as [->|Hne].
    + rewrite (bool_decide_eq_false_2 (p ∈ rest ∧ p ∉ context_files env))
        by (by intros [? _]).
      destruct (decide (p ∈ context_files env)) as [Hc|Hc].
      * rewrite (bool_decide_eq_true_2 _ Hc).
        rewrite bool_decide_eq_false_2; [done|]. by intros [_ ?].
      * rewrite (bool_decide_eq_false_2 _ Hc), lookup_delete_eq.
        rewrite bool_decide_eq_true_2; [done|]. split; [left|done].
    + assert ((if bool_decide (p ∈ context_files env)
               then syntax_completions self
               else delete p (syntax_completions self)) !! q
              = syntax_completions self !! q) as ->.
      { case_bool_decide; [done|by rewrite lookup_delete_ne]. }
      rewrite (bool_decide_ext (q ∈ rest ∧ q ∉ context_files env)
                 (q ∈ p :: rest ∧ q ∉ context_files env)); [done|].
      rewrite elem_of_cons.
      split; [intros [? ?]; auto|intros [[?|?] ?]; [done|auto]].
Qed.

Lemma update_file_path_cases env created self file_path :
  update_file_path env created self file_path
  = refresh_completions_for_file_path env created self file_path
  ∨ (update_file_path env created self file_path).1 = self.
Proof.
  unfold update_file_path.
  destruct (syntax_completions self !! file_path) as [completion|]; [|auto].
  destruct (getmtime env file_path) as [e|modified_at]; [auto|].
  destruct (created_at completion <? modified_at); auto.
Qed.

(** What the second loop keeps, whether or not it comes to its end. *)
Lemma for_each_update env created (P : SyntaxCompletions → Prop) paths :
  (∀ self file_path,
     P self →
     P (refresh_completions_for_file_path env created self file_path).1) →
  ∀ self, P self → P (for_each (update_file_path env created) self paths).1.
Proof.
  intros Hkeep. induction paths as [|p rest IH]; intros self HP; [done|].
  simpl.
  assert (P (update_file_path env created self p).1) as HP'.
  { destruct (update_file_path_cases env created self p) as [->| ->]; auto. }
  destruct (update_file_path env created self p) as [self' [e|]]; [done|].
  by apply IH.
Qed.

Lemma refresh_completions_for_file_path_words env created self file_path :
  words_are_long self →
  words_are_long
    (refresh_completions_for_file_path env created self file_path).1.
Proof.
  intros Hlong.
  destruct (refresh_completions_for_file_path_cases env created self file_path)
    as [->|(completion & _ & Hwords & Hsc & _)]; [done|].
  intros q c word. rewrite Hsc.
  destruct (decide (file_path = q)) as [->|Hne].
  - rewrite lookup_insert_eq. intros [= <-]. apply Hwords.
  - rewrite lookup_insert_ne by done. apply Hlong.
Qed.

Lemma refresh_completions_for_file_path_tracked env created self file_path
    (tracked : Path → Prop) :
  tracked file_path →
  (∀ q, is_Some (syntax_completions self !! q) → tracked q) →
  ∀ q,
    is_Some
      (syntax_completions
         (refresh_completions_for_file_path env created self file_path).1
       !! q) →
    tracked q.
Proof.
  intros Hp Hall q.
  destruct (refresh_completions_for_file_path_cases env created self file_path)
    as [->|(completion & _ & _ & -> & _)]; [apply Hall|].
  rewrite lookup_insert_is_Some'. intros [<-|Hq]; auto.
Qed.

Lemma for_each_update_tracked env created paths (tracked : Path → Prop) :
  (∀ file_path, file_path ∈ paths → tracked file_path) →
  ∀ self,
    (∀ q, is_Some (syntax_completions self !! q) → tracked q) →
    ∀ q,
      is_Some
        (syntax_completions
           (for_each (update_file_path env created) self paths).1 !! q) →
      tracked q.
Proof.
  induction paths as [|p rest IH]; intros Hpaths self Hall; [done|].
  simpl.
  assert (∀ q, is_Some (syntax_completions
                          (update_file_path env created self p).1 !! q) →
               tracked q) as Hall'.
  { destruct (update_file_path_cases env created self p) as [->| ->]; [|done].
    apply refresh_completions_for_file_path_tracked; [|done].
    apply Hpaths. left. }
  destruct (update_file_path env created self p) as [self' [e|]]; [done|].
  apply IH; [|done]. intros q Hq. apply Hpaths. by right.
Qed.

Lemma all_words_spec (m : gmap string SyntaxCompletion) word :
  word ∈ map_fold (λ _ completion all_words, all_words ∪ words completion)
                  (∅ : gset string) m
  ↔ ∃ file_path completion,
      m !! file_path = Some completion ∧ word ∈ words completion.
Proof.
  induction m as [|p c m Hp Hfold IH] using map_first_key_ind.
  - rewrite map_fold_empty. split; [set_solver|].
    intros (? & ? & ? & _). by rewrite lookup_empty in *.
  - rewrite map_fold_insert_first_key by done.
    rewrite elem_of_union, IH. split.
    + intros [(q & c' & Hq & Hw)|Hw].
      * exists q, c'. split; [|done].
        rewrite lookup_insert_ne; [done|]. intros <-. congruence.
      * exists p, c. by rewrite lookup_insert_eq.
    + intros (q & c' & Hq & Hw).
      destruct (decide (p = q)) as [<-|Hne].
      * rewrite lookup_insert_eq in Hq. injection Hq as <-. by right.
      * rewrite lookup_insert_ne in Hq by done. left. by exists q, c'.
Qed.

Lemma for_each_update_raises env created paths : ∀ self raised,
  (for_each (update_file_path env created) self paths).2 = Some raised →
  ∃ e, raised = OSError e.
Proof.
  induction paths as [|p rest IH]; intros self raised; [done|].
  cbn [for_each].
  destruct (update_file_path env created self p) as [self' [f|]] eqn:Hupdate;
    [|apply IH].
  simpl. intros [= <-]. revert Hupdate.
  unfold update_file_path, refresh_completions_for_file_path.
  repeat (case_match; try done); intros [= _ <-]; by eexists.
Qed.

Lemma no_completions_agree env since : indexes_agree env (no_completions since).
Proof.
  split; simpl.
  - intros name q. rewrite !lookup_empty. split.
    + by intros (? & ? & ?).
    + by intros [[? ?] _].
  - intros name. by rewrite lookup_empty.
Qed.

Lemma refresh_completions_stages env created self :
  indexes_agree env self →
  ∃ cleaned updated,
    for_each (forget_file_path env) self
      (elements (dom (syntax_completions self))) = (cleaned, None)
    ∧ indexes_agree env cleaned
    ∧ (∀ q, syntax_completions cleaned !! q
            = if bool_decide (q ∈ context_files env)
              then syntax_completions self !! q
              else None)
    ∧ updated
      = (for_each (update_file_path env created) cleaned (context_files env)).1
    ∧ (refresh_completions env created self).1
      = (if (for_each (update_file_path env created) cleaned
               (context_files env)).2 is Some _
         then updated
         else {| syntax_completions := syntax_completions updated;
                 file_name_completions := file_name_completions updated;
                 all_syntax_words :=
                   map_fold (λ _ completion all_words,
                               all_words ∪ words completion)
                            ∅ (syntax_completions updated);
                 last_refresh_at := utcnow env |})
    ∧ (refresh_completions env created self).2
      = (for_each (update_file_path env created) cleaned (context_files env)).2.
Proof.
  intros Hagree.
  destruct (for_each_forget env (elements (dom (syntax_completions self)))
              self Hagree) as (Hnone & Hagree' & Hsc & _).
  { apply NoDup_elements. }
  { intros q. by rewrite elem_of_elements, elem_of_dom. }
  unfold refresh_completions.
  destruct (for_each (forget_file_path env) self _) as [cleaned raised].
  simpl in Hnone, Hagree', Hsc. subst raised.
  eexists cleaned, _. split; [done|]. split; [done|]. split.
  { intros q. rewrite Hsc.
    destruct (decide (q ∈ context_files env)) as [Hc|Hc].
    - rewrite (bool_decide_eq_true_2 _ Hc).
      rewrite bool_decide_eq_false_2; [done|]. by intros [_ ?].
    - rewrite (bool_decide_eq_false_2 _ Hc).
      case_bool_decide as Hq; [done|].
      destruct (syntax_completions self !! q) eqn:Hlookup; [|done].
      destruct Hq. split; [|done].
      apply elem_of_elements, elem_of_dom. by eexists. }
  split; [done|].
  by destruct (for_each (update_file_path env created) cleaned _)
    as [updated [e|]].
Qed.

(** X23: [refresh_completions] keeps its two indexes in step, whether it
    returns or is cut short by an error of the file system: afterwards,
    as before, a path is listed under a file name exactly when it has
    syntax completions and bears that name, and no name is left with an
    empty set; the [remove] of its first loop never raises [KeyError];
    and no completion word is a single character if none was. *)
Theorem refresh_completions_keeps_indexes_in_step (env : Surroundings)
    (default_created_at : Z) (self : SyntaxCompletions) :
  indexes_agree env self →
  words_are_long self →
  let after := refresh_completions env default_created_at self in
  indexes_agree env after.1
  ∧ words_are_long after.1
  ∧ ∀ e, after.2 ≠ Some (PyError e).
Proof.
  intros Hagree Hlong after.
  destruct (refresh_completions_stages env default_created_at self Hagree)
    as (cleaned & updated & _ & Hagree' & Hsc & Hupdated & Hstate & Hraised).
  assert (words_are_long cleaned) as Hlong'.
  { intros q c word. rewrite Hsc. case_bool_decide; [apply Hlong|done]. }
  assert (indexes_agree env updated ∧ words_are_long updated) as [Ha Hl].
  { rewrite Hupdated.
    apply (for_each_update env default_created_at
             (λ st, indexes_agree env st ∧ words_are_long st)); [|done].
    intros st p [? ?]. split.
    - by apply refresh_completions_for_file_path_agree.
    - by apply refresh_completions_for_file_path_words. }
  unfold after. rewrite Hstate, Hraised. split; [|split].
  - by destruct (for_each _ _ _).2.
  - by destruct (for_each _ _ _).2.
  - intros e He.
    apply for_each_update_raises in He as [e' He']. done.
Qed.

(** X24: when [refresh_completions] returns, only files of the code
    context have syntax completions, every file of the context that had
    some still has, the set of all syntax words holds exactly the words
    of the files that have completions, and the time of the refresh is
    the current time. *)
Theorem refresh_completions_follows_the_context (env : Surroundings)
    (default_created_at : Z) (self : SyntaxCompletions) :
  indexes_agree env self →
  let after := refresh_completions env default_created_at self in
  after.2 = None →
  (∀ file_path,
     is_Some (syntax_completions after.1 !! file_path) →
     file_path ∈ context_files env)
  ∧ (∀ file_path,
       file_path ∈ context_files env →
       is_Some (syntax_completions self !! file_path) →
       is_Some (syntax_completions after.1 !! file_path))
  ∧ (∀ word,
       word ∈ all_syntax_words after.1
       ↔ ∃ file_path completion,
           syntax_completions after.1 !! file_path = Some completion
           ∧ word ∈ words completion)
  ∧ last_refresh_at after.1 = utcnow env.
Proof.
  intros Hagree after.
  destruct (refresh_completions_stages env default_created_at self Hagree)
    as (cleaned & updated & _ & _ & Hsc & Hupdated & Hstate & Hraised).
  unfold after. rewrite Hstate, Hraised. intros ->. simpl.
  split; [|split; [|split; [|done]]].
  - rewrite Hupdated.
    apply (for_each_update_tracked env default_created_at (context_files env)
             (λ q, q ∈ context_files env)); [done|].
    intros q. rewrite Hsc. case_bool_decide; [done|by intros [? ?]].
  - intros q Hq Hthere. rewrite Hupdated.
    apply (for_each_update env default_created_at
             (λ st, is_Some (syntax_completions st !! q))).
    + intros st p Hst.
      destruct (refresh_completions_for_file_path_cases env
                  default_created_at st p)
        as [->|(completion & _ & _ & -> & _)]; [done|].
      rewrite lookup_insert_is_Some'. auto.
    + rewrite Hsc. by rewrite bool_decide_eq_true_2.
  - apply all_words_spec.
Qed.

Lemma refresh_completions_keeps_indexes_in_step_witness :
  let env :=
    mkSurroundings (λ _, inr "xy = x"%string) (λ _, inr 7) (λ p, p)
      (λ _ _, Some [("Name", "xy"); ("Operator", "="); ("Name", "x")]%string)
      (λ token_type, String.eqb token_type "Name") ["a.py"%string] 9 in
  let after := refresh_completions env 0 (no_completions 0) in
  indexes_agree env after.1
  ∧ words_are_long after.1
  ∧ ∀ e, after.2 ≠ Some (PyError e).
Proof.
  intros env.
  apply (refresh_completions_keeps_indexes_in_step env 0 (no_completions 0)).
  - apply no_completions_agree.
  - intros q c word. simpl. by rewrite lookup_empty.
Defined.

Lemma refresh_completions_follows_the_context_witness :
  let env :=
    mkSurroundings (λ _, inr "xy = x"%string) (λ _, inr 7) (λ p, p)
      (λ _ _, Some [("Name", "xy"); ("Operator", "="); ("Name", "x")]%string)
      (λ token_type, String.eqb token_type "Name") ["a.py"%string] 9 in
  let after := refresh_completions env 0 (no_completions 0) in
  (∀ file_path,
     is_Some (syntax_completions after.1 !! file_path) →
     file_path ∈ context_files env)
  ∧ (∀ file_path,
       file_path ∈ context_files env →
       is_Some (syntax_completions (no_completions 0) !! file_path) →
       is_Some (syntax_completions after.1 !! file_path))
  ∧ (∀ word,
       word ∈ all_syntax_words after.1
       ↔ ∃ file_path completion,
           syntax_completions after.1 !! file_path = Some completion
           ∧ word ∈ words completion)
  ∧ last_refresh_at after.1 = utcnow env.
Proof.
  intros env.
  apply (refresh_completions_follows_the_context env 0 (no_completions 0)).
  - apply no_completions_agree.
  - vm_compute. reflexivity.
Defined.

(** ** Listing search results *)

Lemma batch_check_small (i : nat) :
  (i ≤ 9)%nat →
  (0 <? i)%nat && (i `mod` SEARCH_RESULT_BATCH_SIZE =? 0)%nat = false.
Proof.
  intros Hi. unfold SEARCH_RESULT_BATCH_SIZE.
  destruct (decide (i = 0)%nat) as [->|Hne]; [done|].
  rewrite Nat.mod_small by lia.
  apply andb_false_iff. right. apply Nat.eqb_neq. lia.
Qed.

Lemma show_results_first_batch {R} (show : nat → R → string) results replies :
  ∀ i,
    (i + length results ≤ 10)%nat →
    show_results show i results replies
    = (imap (λ k result, (show (i + k)%nat result, None)) results, replies).
Proof.
  induction results as [|result rest IH]; intros i Hlen; [done|].
  cbn [show_results]. simpl in Hlen.
  rewrite batch_check_small, IH by lia.
  cbn [imap]. rewrite Nat.add_0_r. do 2 f_equal.
  apply imap_ext. intros k x _. simpl. do 2 f_equal. lia.
Qed.

(** X25: [/search] with a query whose search succeeds lists up to ten
    results without asking anything and ends with "Search complete".
    With more than ten it asks "Show More results?" after the eleventh
    line; a user who declines gets exactly the first eleven results,
    the prompt and "Search complete". *)
Theorem search_lists_the_first_eleven {R} (search : string → string + list R)
    (show : nat → R → string) (args : list string) (results : list R)
    (replies : list (option bool)) :
  args ≠ [] →
  search (String.concat " " args) = inr results →
  ((length results ≤ 10)%nat →
   SearchCommand_apply search show args replies
   = (imap (λ i result, (show i result, None)) results
      ++ [("Search complete"%string, Some "green"%string)],
      replies))
  ∧ ((10 < length results)%nat →
     ∀ rest,
       replies = Some false :: rest →
       SearchCommand_apply search show args replies
       = (imap (λ i result, (show i result, None)) (take 11 results)
          ++ [(newline +:+ "Show More results? ", None);
              ("Search complete"%string, Some "green"%string)],
          rest)).
Proof.
  intros Hargs Hsearch. unfold SearchCommand_apply.
  destruct args as [|arg args]; [done|]. rewrite Hsearch. split.
  - intros Hlen. by rewrite (show_results_first_batch show results replies 0).
  - intros Hlen rest ->.
    rewrite <-(take_drop 10 results) at 1.
    assert (length (take 10 results) = 10%nat) as Hten
      by (rewrite length_take; lia).
    destruct (drop 10 results) as [|eleventh more] eqn:Hdrop.
    { apply (f_equal length) in Hdrop. rewrite length_drop in Hdrop.
      simpl in Hdrop. lia. }
    assert (take 11 results = take 10 results ++ [eleventh]) as ->.
    { rewrite <-(take_drop 10 results) at 1. rewrite Hdrop.
      rewrite take_app_ge by lia. rewrite Hten. simpl.
      by rewrite take_0. }
    assert (∀ (front : list R) i,
              (i + length front = 10)%nat →
              show_results show i (front ++ eleventh :: more)
                (Some false :: rest)
              = (imap (λ k result, (show (i + k)%nat result, None))
                      (front ++ [eleventh])
                 ++ [(newline +:+ "Show More results? ", None)],
                 rest)) as Hfront.
    { induction front as [|r front IH]; intros i Hi.
      - simpl in Hi. assert (i = 10%nat) as -> by lia. done.
      - cbn [app show_results]. simpl in Hi.
        rewrite batch_check_small, IH by lia.
        cbn [imap app]. rewrite Nat.add_0_r.
        do 3 f_equal. apply imap_ext. intros k x _. simpl.
        do 2 f_equal. lia. }
    rewrite (Hfront (take 10 results) 0%nat) by lia.
    by rewrite <-(assoc_L (++)).
Qed.

Lemma search_lists_the_first_eleven_witness :
  let search := λ _ : string, inr (seq 0 12) : string + list nat in
  let show := λ (i : nat) (result : nat), String.concat "" (replicate result "r"%string) in
  (12 ≤ 10 →
   SearchCommand_apply search show ["x"%string] [Some false]
   = (imap (λ i result, (show i result, None)) (seq 0 12)
      ++ [("Search complete"%string, Some "green"%string)],
      [Some false]))%nat
  ∧ ((10 < 12)%nat →
     ∀ rest,
       [Some false] = Some false :: rest →
       SearchCommand_apply search show ["x"%string] [Some false]
       = (imap (λ i result, (show i result, None)) (take 11 (seq 0 12))
          ++ [(newline +:+ "Show More results? ", None);
              ("Search complete"%string, Some "green"%string)],
          rest)).
Proof.
  intros search show.
  apply (search_lists_the_first_eleven search show ["x"%string] (seq 0 12)
           [Some false]); [discriminate|reflexivity].
Defined.

(** ** The scripted user of the benchmark *)



(** ** The applier and the review, together *)

Lemma slice_in_bounds {A} (l : list A) (i j : Z) :
  0 <= i <= j → j <= Py.len l →
  Py.slice l i j = take (Z.to_nat j - Z.to_nat i) (drop (Z.to_nat i) l).
Proof.
  intros Hi Hj. unfold Py.slice, Py.len in *.
  by rewrite !slice_index_in_bounds by lia.
Qed.

(** X27: for a replacement whose range lies within the buffer, the
    block the review shows as removed is the block the applier takes
    out: the buffer is the lines in front of the range, that block and
    the lines behind the range, and the applier returns the same with
    the new lines in the place of the block. *)
Theorem shown_block_is_replaced_block (r : Replacement) (lines : list string) :
  0 <= starting_line r <= ending_line r →
  ending_line r <= Py.len lines →
  let before := take (Z.to_nat (starting_line r)) lines in
  let removed := Py.slice lines (starting_line r) (ending_line r) in
  let behind := drop (Z.to_nat (ending_line r)) lines in
  lines = before ++ removed ++ behind
  ∧ Py.len removed = ending_line r - starting_line r
  ∧ get_updated_file_lines_list [r] lines = Ok (before ++ new_lines r ++ behind).
Proof.
  intros Hs He before removed behind.
  unfold removed. rewrite slice_in_bounds by done.
  split; [|split].
  - unfold before, behind. rewrite (assoc_L (++)), take_take_drop.
    replace (Z.to_nat (starting_line r)
             + (Z.to_nat (ending_line r) - Z.to_nat (starting_line r)))%nat
      with (Z.to_nat (ending_line r)) by lia.
    by rewrite take_drop.
  - unfold Py.len in *. rewrite length_take, length_drop. lia.
  - unfold get_updated_file_lines_list. rewrite sort_reverse_singleton.
    by rewrite apply_loop_in_bounds.
Qed.

Lemma shown_block_is_replaced_block_witness :
  let lines := ["l0"; "l1"; "l2"; "l3"]%string in
  lines = ["l0"%string] ++ ["l1"; "l2"]%string ++ ["l3"%string]
  ∧ Py.len ["l1"; "l2"]%string = 3 - 1
  ∧ get_updated_file_lines_list [mkReplacement 1 3 ["new"%string]] lines
    = Ok (["l0"%string] ++ ["new"%string] ++ ["l3"%string]).
Proof.
  intros lines.
  apply (shown_block_is_replaced_block (mkReplacement 1 3 ["new"%string])
           lines); [simpl; lia|vm_compute; discriminate].
Defined.

Lemma apply_loop_outcome rs : ∀ earliest lines,
  (back_to_front earliest rs
   ∧ ∃ out, apply_loop (Some earliest) lines rs = Ok out)
  ∨ (¬ back_to_front earliest rs
     ∧ apply_loop (Some earliest) lines rs = Raise overlap_error).
Proof.
  induction rs as [|r rest IH]; intros earliest lines.
  - left. split; [done|by eexists].
  - cbn [apply_loop back_to_front].
    destruct (ending_line r >? earliest) eqn:Hgt.
    + right. split; [lia|done].
    + destruct (IH (starting_line r)
                  (Py.slice_to
                     (if ending_line r >? Py.len lines
                      then lines
                           ++ Py.repeat_list ""%string
                                (ending_line r - Py.len lines)
                      else lines) (starting_line r)
                   ++ new_lines r
                   ++ Py.slice_from
                        (if ending_line r >? Py.len lines
                         then lines
                              ++ Py.repeat_list ""%string
                                   (ending_line r - Py.len lines)
                         else lines) (ending_line r)))
        as [[Hb Hok]|[Hb Hraise]].
      * left. split; [split; [lia|done]|done].
      * right. split; [by intros [_ ?]|done].
Qed.

(** X28: applying has two outcomes only, and which one it is depends on
    the replacements alone, not on the buffer: it returns lines when, in
    the sorted list, each range ends where the range in front of it
    starts, or earlier, and raises the overlap [MentatError]
    otherwise. *)
Theorem get_updated_file_lines_fails_only_on_overlap (self : FileEdit)
    (lines : list string) :
  let sorted := Py.sort_reverse Replacement_lt (replacements self) in
  (in_applying_order sorted
   ∧ ∃ out, get_updated_file_lines self lines = Ok out)
  ∨ (¬ in_applying_order sorted
     ∧ get_updated_file_lines self lines = Raise overlap_error).
Proof.
  intros sorted. unfold get_updated_file_lines, get_updated_file_lines_list.
  fold sorted. destruct sorted as [|first rest].
  - left. split; [done|by eexists].
  - rewrite apply_loop_first. apply apply_loop_outcome.
Qed.
